(** * Frontend_dev: curry with placeholders, simple curry and flat

    A shallow embedding of the utilities of the repository:

    - [src/falt_Polyfil.ts], [curry] with placeholder support
      ([Curry], and its store-level reading [CurryStore]);
    - [src/unnamed/part_000], the plain [curry] ([SimpleCurry]);
    - the target functions [join] and [sum] of the examples ([Js]);
    - [src/falt_Polyfil.ts], [flat] / [flattenHelper]
      ([Flat], and its store-level reading [FlatStore]).

    [CurrySpec] holds the notions of the specification the statements are
    compared with.

    Closures are defunctionalised: a closure is the name of its code together
    with the variables it captured.  JavaScript numbers are modelled by
    integers (exact for the safe-integer range of a double). *)

From stdpp Require Import base option list gmap strings.
From Stdlib Require Import ZArith Lia DecimalString.

Local Open Scope Z_scope.
Set Warnings "-register-all".

(** ** Completions: a call either returns normally or throws *)

Inductive error := TypeError | RangeError.

Inductive completion (A : Type) :=
  | Normal (a : A)
  | Throw (e : error).

Arguments Normal {A} a.
Arguments Throw {A} e.

Definition completion_bind {A B} (c : completion A) (k : A -> completion B)
  : completion B :=
  match c with
  | Normal a => k a
  | Throw e => Throw e
  end.

(** ** curry with placeholder support (src/falt_Polyfil.ts, lines 91-146) *)

Module Curry.
Section engine.
(** [V] is the type of argument values, [R] the type of what the target
    function yields.  [placeholder] is [curry.placeholder = Symbol()]; a
    symbol is equal ([===], and SameValueZero for [includes]) to itself
    only, which is decidable equality with [placeholder] here. *)
Context {V R : Type} `{EqDecision V}.
Variable placeholder : V.

(** The target function: [fn.length] and what [fn(...args)] evaluates to.
    [fn.length] is a number the engine reads at each call; it is not
    checked anywhere, so it is an integer of any sign here. *)
Record target := Target { fn_length : Z; fn_body : list V -> R }.

(** [arr.slice(0, end)] for an integer [end]: a negative [end] counts from
    the back of the array. *)
Definition slice0 (end_ : Z) (arr : list V) : list V :=
  let len := Z.of_nat (length arr) in
  let final := if end_ <? 0 then Z.max (len + end_) 0 else Z.min end_ len in
  take (Z.to_nat final) arr.

(** [arr.includes(x)] *)
Definition includes (x : V) (arr : list V) : bool :=
  existsb (fun y => bool_decide (y = x)) arr.

(** [arg.length >= fn.length &&
     !arg.slice(0, fn.length).includes(curry.placeholder)] *)
Definition isValid (fn : target) (arg : list V) : bool :=
  (fn_length fn <=? Z.of_nat (length arg))
  && negb (includes placeholder (slice0 (fn_length fn) arg)).

(** The callback of [arg.map]:
    [item === curry.placeholder && nextArg.length ? nextArg.shift() : item].
    [nextArg] is mutated by [shift], so it is threaded through: the callback
    returns the mapped value and what is left of [nextArg]. *)
Definition fill (item : V) (nextArg : list V) : V * list V :=
  if bool_decide (item = placeholder) then
    match nextArg with
    | [] => (item, nextArg)            (* nextArg.length is 0 *)
    | x :: rest => (x, rest)           (* nextArg.shift() *)
    end
  else (item, nextArg).

(** [const resultArg = arg.map(...)]: the mapped array and the remaining
    [nextArg]. *)
Fixpoint resultArg (arg nextArg : list V) : list V * list V :=
  match arg with
  | [] => ([], nextArg)
  | item :: tl =>
      let '(x, nextArg1) := fill item nextArg in
      let '(xs, nextArg2) := resultArg tl nextArg1 in
      (x :: xs, nextArg2)
  end.

(** The two function values of the engine, with what they capture:
    [curried] captures [fn]; the anonymous inner function captures [fn]
    and the [arg] of the call of [curried] that created it. *)
Inductive closure :=
  | Curried (fn : target)
  | Inner (fn : target) (arg : list V).

(** What a call evaluates to: the value of [fn(...arg)], or a function. *)
Inductive outcome :=
  | Invoked (r : R)
  | Returned (c : closure).

(** [function curried(...arg)] *)
Definition curried (fn : target) (arg : list V) : outcome :=
  if isValid fn arg then Invoked (fn_body fn arg)
  else Returned (Inner fn arg).

(** [function (...nextArg)]: [curried(...resultArg, ...nextArg)] *)
Definition inner (fn : target) (arg nextArg : list V) : outcome :=
  let '(filled, rest) := resultArg arg nextArg in
  curried fn (filled ++ rest).

(** Calling a function value of the engine. *)
Definition call (c : closure) (args : list V) : outcome :=
  match c with
  | Curried fn => curried fn args
  | Inner fn arg => inner fn arg args
  end.

(** [function curry(fn) { return function curried ... }] *)
Definition curry (fn : target) : completion closure := Normal (Curried fn).

(** A chain of calls [c(args1)(args2)...].  What the target yields is
    taken to be data: calling it is a TypeError. *)
Fixpoint chain (c : closure) (calls : list (list V)) : completion outcome :=
  match calls with
  | [] => Normal (Returned c)
  | args :: rest =>
      match call c args with
      | Invoked r =>
          match rest with
          | [] => Normal (Invoked r)
          | _ :: _ => Throw TypeError
          end
      | Returned c' => chain c' rest
      end
  end.

(** The expression [curry(fn)(args1)(args2)...]. *)
Definition run (fn : target) (calls : list (list V)) : completion outcome :=
  completion_bind (curry fn) (fun c => chain c calls).

(** The pending argument list a function value holds: none for the entry
    point, the captured [arg] for a continuation. *)
Definition pending (c : closure) : list V :=
  match c with
  | Curried _ => []
  | Inner _ arg => arg
  end.

End engine.

Arguments target : clear implicits.
Arguments closure : clear implicits.
Arguments outcome : clear implicits.
End Curry.

(** ** The same engine over a store of arrays

    [curried] and the inner function keep their arguments in arrays: the rest
    parameters [arg] and [nextArg], the array [arg.map] builds and the one
    [slice] builds.  A continuation captures a reference to [arg], and
    [nextArg.shift()] updates an array in place.  Here these arrays live in a
    store, each call allocates its own, and a closure holds a location.  The
    target function receives the elements ([fn(...arg)]), not the arrays. *)

Module CurryStore.

Definition loc := positive.

(** The store: the elements of each array object. *)
Abbreviation store V := (gmap loc (list V)).

Section engine.
Context {V R : Type} `{EqDecision V}.
Variable placeholder : V.
(** What [shift] and an out-of-range index give. *)
Variable undefined : V.

Abbreviation target := (Curry.target V R).
Abbreviation store := (store V).

(** Computations over the store; [None] is a read through a location that
    holds no array. *)
Definition M (A : Type) : Type := store -> option (A * store).

Definition ret {A} (a : A) : M A := fun s => Some (a, s).

Definition bind {A B} (m : M A) (k : A -> M B) : M B :=
  fun s => match m s with
           | Some (a, s1) => k a s1
           | None => None
           end.

Notation "x <- m ;; k" := (bind m (fun x => k))
  (at level 100, m at next level, right associativity).
Notation "m ;;; k" := (bind m (fun _ => k))
  (at level 100, right associativity).

(** A new array object holding [vs]. *)
Definition new_array (vs : list V) : M loc :=
  fun s => let l := fresh (dom s) in Some (l, <[l := vs]> s).

(** The elements of the array at [l] (as the spread [...l] reads them). *)
Definition elements (l : loc) : M (list V) :=
  fun s => match s !! l with
           | Some vs => Some (vs, s)
           | None => None
           end.

(** [l.length] *)
Definition array_length (l : loc) : M nat :=
  vs <- elements l ;; ret (length vs).

(** [l[k]] *)
Definition get_index (l : loc) (k : nat) : M V :=
  vs <- elements l ;; ret (default undefined (vs !! k)).

(** [l.shift()]: removes and returns the first element, in place. *)
Definition shift (l : loc) : M V :=
  fun s => match s !! l with
           | Some [] => Some (undefined, s)
           | Some (x :: rest) => Some (x, <[l := rest]> s)
           | None => None
           end.

(** [l[l.length] = v] *)
Definition push (l : loc) (v : V) : M unit :=
  fun s => match s !! l with
           | Some vs => Some (tt, <[l := vs ++ [v]]> s)
           | None => None
           end.

(** [l.slice(0, end)]: a new array. *)
Definition slice0 (l : loc) (end_ : Z) : M loc :=
  vs <- elements l ;; new_array (Curry.slice0 end_ vs).

(** [l.includes(x)] *)
Definition includes (l : loc) (x : V) : M bool :=
  vs <- elements l ;; ret (Curry.includes x vs).

(** The callback of [arg.map], with [nextArg] an array of the store. *)
Definition fill (nextArg : loc) (item : V) : M V :=
  if bool_decide (item = placeholder) then
    n <- array_length nextArg ;;
    if Nat.eqb n 0 then ret item else shift nextArg
  else ret item.

(** The loop of [arg.map(cb)]: for [k], [k+1], ... ([n] indices left) read
    [arg[k]] from the store as it is then, call the callback, and write its
    value to the array being built.  The arrays of the engine are dense (rest
    parameters and what is built from them), so an index below the length
    is a property of the array and [map] visits it. *)
Fixpoint map_from (arg nextArg res : loc) (k n : nat) : M unit :=
  match n with
  | O => ret tt
  | S n' =>
      item <- get_index arg k ;;
      v <- fill nextArg item ;;
      push res v ;;;
      map_from arg nextArg res (S k) n'
  end.

(** [arg.map(cb)]: the length is read once, the result is a new array. *)
Definition map_fill (arg nextArg : loc) : M loc :=
  len <- array_length arg ;;
  res <- new_array [] ;;
  map_from arg nextArg res 0 len ;;;
  ret res.

(** Function values: the inner function captures the array [arg]. *)
Inductive closure :=
  | Curried (fn : target)
  | Inner (fn : target) (arg : loc).

Inductive outcome :=
  | Invoked (r : R)
  | Returned (c : closure).

(** [const isValid = arg.length >= fn.length && !arg.slice(...).includes(...)],
    the right operand evaluated only when the left one holds. *)
Definition isValid (fn : target) (arg : loc) : M bool :=
  len <- array_length arg ;;
  if Curry.fn_length fn <=? Z.of_nat len then
    sl <- slice0 arg (Curry.fn_length fn) ;;
    inc <- includes sl placeholder ;;
    ret (negb inc)
  else ret false.

(** [function curried(...arg)]: the rest parameter is a new array. *)
Definition curried (fn : target) (args : list V) : M outcome :=
  arg <- new_array args ;;
  valid <- isValid fn arg ;;
  if (valid : bool) then
    vs <- elements arg ;;
    ret (Invoked (Curry.fn_body fn vs))
  else ret (Returned (Inner fn arg)).

(** [function (...nextArg)] *)
Definition inner (fn : target) (arg : loc) (args : list V) : M outcome :=
  nextArg <- new_array args ;;
  res <- map_fill arg nextArg ;;
  filled <- elements res ;;
  rest <- elements nextArg ;;
  curried fn (filled ++ rest).

Definition call (c : closure) (args : list V) : M outcome :=
  match c with
  | Curried fn => curried fn args
  | Inner fn arg => inner fn arg args
  end.

(** Reading a store-level outcome back as one over lists: a continuation
    stands for the elements its array holds in [s]. *)
Definition read_closure (s : store) (c : closure) : option (Curry.closure V R) :=
  match c with
  | Curried fn => Some (Curry.Curried fn)
  | Inner fn arg => Curry.Inner fn <$> s !! arg
  end.

Definition read_outcome (s : store) (o : outcome) : option (Curry.outcome V R) :=
  match o with
  | Invoked r => Some (Curry.Invoked r)
  | Returned c => Curry.Returned <$> read_closure s c
  end.

(** Every array of [s] is in [s'] at the same location with the same
    elements: nothing that existed was written to. *)
Definition preserved (s s' : store) : Prop :=
  forall l : loc, l ∈ dom s -> s' !! l = s !! l.

End engine.

Arguments closure : clear implicits.
Arguments outcome : clear implicits.
End CurryStore.


(** ** The plain curry (src/unnamed/part_000, lines 28-39) *)

Module SimpleCurry.
Section engine.
Context {V R : Type}.

Record target := Target { fn_length : Z; fn_body : list V -> R }.

(** [curried] captures [fn]; the arrow function captures [fn] and [arg]. *)
Inductive closure :=
  | Curried (fn : target)
  | Arrow (fn : target) (arg : list V).

Inductive outcome :=
  | Invoked (r : R)
  | Returned (c : closure).

(** [function curried(...arg)] *)
Definition curried (fn : target) (arg : list V) : outcome :=
  if fn_length fn <=? Z.of_nat (length arg) then Invoked (fn_body fn arg)
  else Returned (Arrow fn arg).

(** [(...nextArg) => curried(...arg, ...nextArg)] *)
Definition arrow (fn : target) (arg nextArg : list V) : outcome :=
  curried fn (arg ++ nextArg).

Definition call (c : closure) (args : list V) : outcome :=
  match c with
  | Curried fn => curried fn args
  | Arrow fn arg => arrow fn arg args
  end.

(** [function curry(fn) { return function curried ... }] *)
Definition curry (fn : target) : completion closure := Normal (Curried fn).

(** A chain of calls [c(args1)(args2)...]; calling what the target yields
    is a TypeError. *)
Fixpoint chain (c : closure) (calls : list (list V)) : completion outcome :=
  match calls with
  | [] => Normal (Returned c)
  | args :: rest =>
      match call c args with
      | Invoked r =>
          match rest with
          | [] => Normal (Invoked r)
          | _ :: _ => Throw TypeError
          end
      | Returned c' => chain c' rest
      end
  end.

(** The expression [curry(fn)(args1)(args2)...]. *)
Definition run (fn : target) (calls : list (list V)) : completion outcome :=
  completion_bind (curry fn) (fun c => chain c calls).

End engine.

Arguments target : clear implicits.
Arguments closure : clear implicits.
Arguments outcome : clear implicits.
End SimpleCurry.

(** ** The values and target functions of the examples in the sources *)

Module Js.

(** The JavaScript values the examples use.  A number is an integer or NaN;
    [VSymbol id] is the [id]-th symbol made by [Symbol()]. *)
Inductive value :=
  | VUndefined
  | VNumber (z : Z)
  | VNaN
  | VString (s : string)
  | VSymbol (id : nat).

#[global] Instance value_eq_dec : EqDecision value.
Proof. solve_decision. Defined.

(** [curry.placeholder = Symbol()], and [const _ = curry.placeholder] *)
Definition placeholder : value := VSymbol 0.

(** ToString, as a template literal and [+] apply it.  An integer prints in
    decimal (true of a double below 1e21); a symbol does not convert. *)
Definition ToString (v : value) : completion string :=
  match v with
  | VUndefined => Normal "undefined"%string
  | VNumber z => Normal (NilZero.string_of_int (Z.to_int z))
  | VNaN => Normal "NaN"%string
  | VString s => Normal s
  | VSymbol _ => Throw TypeError
  end.

Definition is_string (v : value) : bool :=
  match v with
  | VString _ => true
  | _ => false
  end.

(** [a + b]: concatenation when either operand is a string, else addition of
    numbers, [undefined] converting to NaN. *)
Definition add (a b : value) : completion value :=
  if is_string a || is_string b then
    completion_bind (ToString a) (fun sa =>
    completion_bind (ToString b) (fun sb =>
    Normal (VString (sa +:+ sb))))
  else
    match a, b with
    | VSymbol _, _ | _, VSymbol _ => Throw TypeError
    | VNumber x, VNumber y => Normal (VNumber (x + y))
    | _, _ => Normal VNaN
    end.

(** The [i]-th parameter of a call with arguments [args]: [undefined] when
    fewer were passed. *)
Definition param (args : list value) (i : nat) : value :=
  default VUndefined (args !! i).

(** [const join = (a, b, c) => `${a}_${b}_${c}`]  (falt_Polyfil.ts, 159-161) *)
Definition join (args : list value) : completion value :=
  completion_bind (ToString (param args 0)) (fun a =>
  completion_bind (ToString (param args 1)) (fun b =>
  completion_bind (ToString (param args 2)) (fun c =>
  Normal (VString (a +:+ "_" +:+ b +:+ "_" +:+ c))))).

(** [function sum(a, b, c) { return a + b + c }]  (part_000, 42-44) *)
Definition sum (args : list value) : completion value :=
  completion_bind (add (param args 0) (param args 1)) (fun ab =>
  add ab (param args 2)).

(** [const curriedJoin = curry(join)]: [join.length] is 3. *)
Definition join_target : Curry.target value (completion value) :=
  Curry.Target 3 join.

(** [sum] under the curry with placeholders, and under the plain curry
    ([const testCurry = curry(sum)]); [sum.length] is 3. *)
Definition sum_target : Curry.target value (completion value) :=
  Curry.Target 3 sum.

Definition sum_simple_target : SimpleCurry.target value (completion value) :=
  SimpleCurry.Target 3 sum.

End Js.

(** ** flat (src/falt_Polyfil.ts, lines 24-63) *)

Module Flat.

(** An array is a list of slots, [None] being a hole (an index that is not a
    property of the array); any other value is a [Prim]. *)
Inductive value :=
  | Prim (p : Js.value)
  | Array (slots : list (option value)).

(** The [depth] argument: an integer, or [Infinity]. *)
Inductive depth :=
  | Finite (z : Z)
  | Infinity.

(** [currentDepth > 0] *)
Definition positive_depth (d : depth) : bool :=
  match d with
  | Finite z => 0 <? z
  | Infinity => true
  end.

(** [currentDepth === Infinity ? Infinity : currentDepth - 1] *)
Definition next_depth (d : depth) : depth :=
  match d with
  | Infinity => Infinity
  | Finite z => Finite (z - 1)
  end.

(** The body of the loop for a slot that is present ([i in currentArr]):
    an array is flattened by the loop of [flattenHelper] run on it while the
    depth allows, anything else is written at [result[result.length]].
    [result] is threaded through. *)
Fixpoint visit (v : value) (currentDepth : depth) (result : list value)
  {struct v} : list value :=
  match v with
  | Array slots =>
      if positive_depth currentDepth then
        (fix loop (currentArr : list (option value)) (result : list value)
           {struct currentArr} : list value :=
           match currentArr with
           | [] => result
           | None :: rest => loop rest result
           | Some item :: rest =>
               loop rest (visit item (next_depth currentDepth) result)
           end) slots result
      else result ++ [v]
  | Prim _ => result ++ [v]
  end.

(** [function flattenHelper(currentArr, currentDepth)]: the [for] loop over
    the indices of [currentArr], holes skipped by [continue]. *)
Fixpoint flattenHelper (currentArr : list (option value)) (currentDepth : depth)
  (result : list value) : list value :=
  match currentArr with
  | [] => result
  | None :: rest => flattenHelper rest currentDepth result
  | Some item :: rest =>
      flattenHelper rest currentDepth (visit item currentDepth result)
  end.

(** [function flat(arr, depth = 1)] *)
Definition flat (arr : list (option value)) (depth_ : option depth) : list value :=
  flattenHelper arr (default (Finite 1) depth_) [].

(** What one slot adds to the output, stated directly: nothing for a hole,
    the flattened elements of an array while the depth allows, the value
    itself otherwise. *)
Fixpoint contribution (d : depth) (v : value) {struct v} : list value :=
  match v with
  | Array slots =>
      if positive_depth d then
        concat (map (fun slot =>
                       match slot with
                       | None => []
                       | Some item => contribution (next_depth d) item
                       end) slots)
      else [v]
  | Prim _ => [v]
  end.

Definition slot_contribution (d : depth) (slot : option value) : list value :=
  match slot with
  | None => []
  | Some item => contribution d item
  end.

(** The array of the example in the source:
    [[1, 2, <2 holes>, undefined, [3, 4, <2 holes>, [5, 6, [7, 8, [9, 10]]]]]] *)
Definition num (z : Z) : option value := Some (Prim (Js.VNumber z)).

Definition example_arr : list (option value) :=
  [ num 1; num 2; None; None; Some (Prim Js.VUndefined);
    Some (Array [ num 3; num 4; None; None;
                  Some (Array [ num 5; num 6;
                                Some (Array [ num 7; num 8;
                                              Some (Array [num 9; num 10]) ]) ]) ]) ].

End Flat.

(** ** flat over a store of arrays

    Arrays are objects: a nested array is a reference, [result] is an array
    that [flattenHelper] writes to, and the loop reads [currentArr.length]
    and [currentArr[i]] from the store at each step.  Recursion follows
    references, so it is bounded by fuel. *)

Module FlatStore.

Definition loc := positive.

Inductive value :=
  | Prim (p : Js.value)
  | Ref (l : loc).

Abbreviation store := (gmap loc (list (option value))).

(** [result[result.length] = value] *)
Definition push (result : loc) (v : value) (s : store) : option store :=
  match s !! result with
  | Some arr => Some (<[result := arr ++ [Some v]]> s)
  | None => None
  end.

(** [flattenHelper(currentArr, currentDepth)] from index [i] on.  [None]:
    out of fuel, or a reference to no array. *)
Fixpoint flattenHelper (fuel : nat) (result currentArr : loc)
  (currentDepth : Flat.depth) (i : nat) (s : store) : option store :=
  match fuel with
  | O => None
  | S fuel' =>
      match s !! currentArr with
      | None => None
      | Some arr =>
          match arr !! i with
          | None => Some s                           (* i < currentArr.length fails *)
          | Some None =>                             (* !(i in currentArr) *)
              flattenHelper fuel' result currentArr currentDepth (S i) s
          | Some (Some (Ref inner)) =>
              if Flat.positive_depth currentDepth then
                match flattenHelper fuel' result inner
                        (Flat.next_depth currentDepth) 0 s with
                | Some s1 =>
                    flattenHelper fuel' result currentArr currentDepth (S i) s1
                | None => None
                end
              else
                match push result (Ref inner) s with
                | Some s1 =>
                    flattenHelper fuel' result currentArr currentDepth (S i) s1
                | None => None
                end
          | Some (Some (Prim p)) =>
              match push result (Prim p) s with
              | Some s1 =>
                  flattenHelper fuel' result currentArr currentDepth (S i) s1
              | None => None
              end
          end
      end
  end.

(** [flat(arr, depth = 1)]: [result] is a new array; it is returned. *)
Definition flat (fuel : nat) (arr : loc) (depth_ : option Flat.depth) (s : store)
  : option (loc * store) :=
  let result := fresh (dom s) in
  match flattenHelper fuel result arr (default (Flat.Finite 1) depth_) 0
          (<[result := []]> s) with
  | Some s1 => Some (result, s1)
  | None => None
  end.

(** [represents s v t]: in store [s], the value [v] is the nested array (or
    the primitive) [t]. *)
Inductive represents (s : store) : value -> Flat.value -> Prop :=
  | represents_prim p : represents s (Prim p) (Flat.Prim p)
  | represents_ref l arr slots :
      s !! l = Some arr ->
      Forall2 (option_Forall2 (represents s)) arr slots ->
      represents s (Ref l) (Flat.Array slots).

(** [appends s0 result cur d i expected]: given enough fuel, the run of
    [flattenHelper] on the array [cur] from index [i], in any store that has
    the arrays of [s0] and holds some [acc] at [result], ends with [result]
    holding [acc] followed by values that are, in [s0], what [expected]
    lists, and with nothing else written. *)
Definition appends (s0 : store) (result cur : loc) (d : Flat.depth) (i : nat)
  (expected : list Flat.value) : Prop :=
  exists f0 : nat, forall (fuel : nat) (s : store) (acc : list (option value)),
    (f0 <= fuel)%nat ->
    (forall l, l ∈ dom s0 -> s !! l = s0 !! l) ->
    s !! result = Some acc ->
    exists out : list value,
      flattenHelper fuel result cur d i s
      = Some (<[result := acc ++ (Some <$> out)]> s)
      /\ Forall2 (represents s0) out expected.

(** The store of the example in the source: the five arrays of
    [Flat.example_arr], outermost at location 1. *)
Definition num (z : Z) : option value := Some (Prim (Js.VNumber z)).

Definition example_store : store :=
  <[1%positive := [num 1; num 2; None; None; Some (Prim Js.VUndefined);
                     Some (Ref 2%positive)]]>
  (<[2%positive := [num 3; num 4; None; None; Some (Ref 3%positive)]]>
  (<[3%positive := [num 5; num 6; Some (Ref 4%positive)]]>
  (<[4%positive := [num 7; num 8; Some (Ref 5%positive)]]>
  (<[5%positive := [num 9; num 10]]> ∅)))).

End FlatStore.

(** ** Notions the statements below are phrased with *)

Module CurrySpec.
Section spec.
Context {V R : Type} `{EqDecision V}.
Variable placeholder : V.

(** The merge step in the words of the specification (section 4.1, step 1):
    walk [pending] left to right with a cursor into [newArgs]; a slot that
    holds the placeholder while the cursor is not exhausted takes the value
    at the cursor and the cursor advances; any other slot is left as it is.
    Returns [filled] and the final cursor. *)
Fixpoint merge (pending newArgs : list V) (cursor : nat) : list V * nat :=
  match pending with
  | [] => ([], cursor)
  | slot :: tl =>
      match (if bool_decide (slot = placeholder) then newArgs !! cursor else None) with
      | Some v =>
          let '(filled, c) := merge tl newArgs (S cursor) in (v :: filled, c)
      | None =>
          let '(filled, c) := merge tl newArgs cursor in (slot :: filled, c)
      end
  end.

(** Steps 1 and 2: [filled] followed by the elements of [newArgs] the cursor
    did not consume. *)
Definition combined (pending newArgs : list V) : list V :=
  let '(filled, c) := merge pending newArgs 0 in filled ++ drop c newArgs.

(** Step 3, readiness, in the words of the specification. *)
Definition ready (arity : Z) (args : list V) : Prop :=
  (arity <= Z.of_nat (length args))
  /\ forall i : nat, (Z.of_nat i < arity) -> args !! i <> Some placeholder.

(** The function values a program can get hold of: the entry point, and
    whatever a call of one of them returns. *)
Inductive reachable (fn : Curry.target V R) : Curry.closure V R -> Prop :=
  | reachable_entry : reachable fn (Curry.Curried fn)
  | reachable_call c args c' :
      reachable fn c ->
      Curry.call placeholder c args = Curry.Returned c' ->
      reachable fn c'.

End spec.

Section simple.
Context {V R : Type}.

Inductive simple_reachable (fn : SimpleCurry.target V R)
  : SimpleCurry.closure V R -> Prop :=
  | simple_reachable_entry : simple_reachable fn (SimpleCurry.Curried fn)
  | simple_reachable_call c args c' :
      simple_reachable fn c ->
      SimpleCurry.call c args = SimpleCurry.Returned c' ->
      simple_reachable fn c'.

End simple.
End CurrySpec.

(** ** The two curry implementations side by side *)

Module CurryLink.
Section link.
Context {V R : Type}.

(** The same target function, handed to the plain curry. *)
Definition simple_target (fn : Curry.target V R) : SimpleCurry.target V R :=
  SimpleCurry.Target (Curry.fn_length fn) (Curry.fn_body fn).

(** A function value of the curry with placeholders read as one of the plain
    curry: same target, same arguments held. *)
Definition simple_closure (c : Curry.closure V R) : SimpleCurry.closure V R :=
  match c with
  | Curry.Curried fn => SimpleCurry.Curried (simple_target fn)
  | Curry.Inner fn arg => SimpleCurry.Arrow (simple_target fn) arg
  end.

Definition simple_outcome (o : Curry.outcome V R) : SimpleCurry.outcome V R :=
  match o with
  | Curry.Invoked r => SimpleCurry.Invoked r
  | Curry.Returned c => SimpleCurry.Returned (simple_closure c)
  end.

Definition simple_completion (o : completion (Curry.outcome V R))
  : completion (SimpleCurry.outcome V R) :=
  completion_bind o (fun o' => Normal (simple_outcome o')).

End link.
End CurryLink.

(** ** Notions about nested arrays and stores *)

Module FlatNotions.

(** How deep arrays nest inside a value: 0 for a primitive, one more than
    its deepest element for an array. *)
Fixpoint nesting (v : Flat.value) : nat :=
  match v with
  | Flat.Prim _ => 0%nat
  | Flat.Array slots =>
      S ((fix deepest (l : list (option Flat.value)) : nat :=
            match l with
            | [] => 0%nat
            | None :: rest => deepest rest
            | Some item :: rest => Nat.max (nesting item) (deepest rest)
            end) slots)
  end.

(** The deepest nesting among the elements of an array. *)
Fixpoint deepest (l : list (option Flat.value)) : nat :=
  match l with
  | [] => 0%nat
  | None :: rest => deepest rest
  | Some item :: rest => Nat.max (nesting item) (deepest rest)
  end.

Definition is_prim (v : Flat.value) : bool :=
  match v with
  | Flat.Prim _ => true
  | Flat.Array _ => false
  end.

(** The array a list of values is when every index is set: what [flat]
    returns, passed to [flat] again. *)
Definition dense (l : list Flat.value) : list (option Flat.value) :=
  map Some l.

(** The elements of an array that are present, in order. *)
Definition present (arr : list (option Flat.value)) : list Flat.value :=
  omap id arr.

(** Every reference held in an array of the store is to an array of the
    store. *)
Definition closed (s : FlatStore.store) : Prop :=
  forall (l l' : FlatStore.loc) (arr : list (option FlatStore.value)) (i : nat),
    s !! l = Some arr ->
    arr !! i = Some (Some (FlatStore.Ref l')) ->
    l' ∈ dom s.

(** [finishes s0 result cur d i]: given enough fuel, the run of
    [flattenHelper] on the array [cur] from index [i] ends, in any store
    that has the arrays of [s0] and an array at [result]; the store it ends
    in is such a store again. *)
Definition finishes (s0 : FlatStore.store) (result cur : FlatStore.loc)
  (d : Flat.depth) (i : nat) : Prop :=
  exists f0 : nat, forall (fuel : nat) (s : FlatStore.store),
    (f0 <= fuel)%nat ->
    (forall l, l ∈ dom s0 -> s !! l = s0 !! l) ->
    is_Some (s !! result) ->
    exists s' : FlatStore.store,
      FlatStore.flattenHelper fuel result cur d i s = Some s'
      /\ (forall l, l ∈ dom s0 -> s' !! l = s0 !! l)
      /\ is_Some (s' !! result).

(** An array that is its own first element: [const a = []; a[0] = a]. *)
Definition self_store : FlatStore.store :=
  {[ 1%positive := [Some (FlatStore.Ref 1%positive)] ]}.

End FlatNotions.

(** ** throttle (src/throttel.ts, lines 30-86)

    The throttled function and the callback it hands to [setTimeout] share
    the variables [waiting] and [lastArg].  Time is the time stamp of each
    event: a call of the throttled function, or a timer firing, which the
    host does no earlier than the delay asked for.  Each event runs to its
    end before the next. *)

Module Throttle.
Section throttle.
(** [T]: the values of [this]; [V]: argument values. *)
Context {T V : Type}.

(** [func.call(this, ...args)]: it returns (its value is not used) or it
    throws.  It is taken not to call the throttled function itself. *)
Variable func : T -> list V -> completion unit.
Variable wait : Z.

(** A timer set and not yet fired: when it is due, and the [this] its
    callback captured (the arrow functions take [this] from the call of the
    throttled function that created them). *)
Record timer := Timer { deadline : Z; timer_this : T }.

(** [waiting], [lastArg] ([None] is [null]) and the timers set. *)
Record state := State {
  waiting : bool;
  lastArg : option (list V);
  timers : list timer
}.

(** [let waiting = false; let lastArg = null] *)
Definition initial : state := State false None [].

(** A call of [func] made at a time, with its [this] and arguments. *)
Record invocation := Invocation {
  inv_time : Z;
  inv_this : T;
  inv_args : list V
}.

(** [const runTimeout = () => { setTimeout(callback, wait) }] called at time
    [now]: a delay below 0 counts as 0. *)
Definition runTimeout (now : Z) (this : T) (s : state) : state :=
  State (waiting s) (lastArg s)
    (timers s ++ [Timer (now + Z.max 0 wait) this]).

(** [function (this, ...arg)], the throttled function, called at [now]:
    the new state, the calls of [func] made, and how the call ends. *)
Definition throttled (now : Z) (this : T) (arg : list V) (s : state)
  : state * list invocation * completion unit :=
  if negb (waiting s) then
    match func this arg with
    | Throw e => (s, [Invocation now this arg], Throw e)
    | Normal _ =>
        (runTimeout now this (State true (lastArg s) (timers s)),
         [Invocation now this arg], Normal tt)
    end
  else (State (waiting s) (Some arg) (timers s), [], Normal tt).

(** The callback of [setTimeout], run at [now] with the [this] it
    captured. *)
Definition callback (now : Z) (this : T) (s : state)
  : state * list invocation * completion unit :=
  let s1 := State false (lastArg s) (timers s) in
  match lastArg s1 with
  | Some arg =>                                       (* if (lastArg) *)
      match func this arg with
      | Throw e => (s1, [Invocation now this arg], Throw e)
      | Normal _ =>
          (runTimeout now this (State true None (timers s1)),
           [Invocation now this arg], Normal tt)
      end
  | None => (s1, [], Normal tt)
  end.

(** What can happen: the throttled function is called, or the [k]-th timer
    set fires. *)
Inductive event :=
  | Call (this : T) (arg : list V)
  | Fire (k : nat).

(** One event at time [now].  [None]: there is no such timer, or it is not
    due yet. *)
Definition step (now : Z) (e : event) (s : state)
  : option (state * list invocation) :=
  match e with
  | Call this arg => Some (fst (throttled now this arg s))
  | Fire k =>
      match timers s !! k with
      | Some tm =>
          if deadline tm <=? now then
            Some (fst (callback now (timer_this tm)
                         (State (waiting s) (lastArg s) (delete k (timers s)))))
          else None
      | None => None
      end
  end.

(** A sequence of time-stamped events from time [clock] on: the final state
    and the calls of [func] made, in order.  [None]: time runs backwards,
    or an event cannot happen. *)
Fixpoint run (clock : Z) (s : state) (events : list (Z * event))
  : option (state * list invocation) :=
  match events with
  | [] => Some (s, [])
  | (now, e) :: rest =>
      if clock <=? now then
        match step now e s with
        | Some (s1, log1) =>
            match run now s1 rest with
            | Some (s2, log2) => Some (s2, log1 ++ log2)
            | None => None
            end
        | None => None
        end
      else None
  end.

(** The arguments of the calls of the throttled function among events. *)
Fixpoint call_args (events : list (Z * event)) : list (list V) :=
  match events with
  | [] => []
  | (_, Call _ arg) :: rest => arg :: call_args rest
  | (_, Fire _) :: rest => call_args rest
  end.

(** [func] returned at this call. *)
Definition returned (i : invocation) : Prop :=
  exists u : unit, func (inv_this i) (inv_args i) = Normal u.

End throttle.

Arguments timer : clear implicits.
Arguments state : clear implicits.
Arguments invocation : clear implicits.
Arguments event : clear implicits.
End Throttle.

(** ** Notions about runs of the throttled function *)

Module ThrottleNotions.
Section notions.
Context {T V : Type}.
Variable func : T -> list V -> completion unit.
Variable wait : Z.

(** In a list of calls of [func], latest last: a call from which [func]
    returned is followed by the next one no earlier than the delay. *)
Definition spaced (log : list (Throttle.invocation T V)) : Prop :=
  forall l1 l2 i j,
    log = l1 ++ i :: j :: l2 ->
    Throttle.returned func i ->
    Throttle.inv_time i + Z.max 0 wait <= Throttle.inv_time j.

(** What holds at time [clock] of the state, [log] being the calls of
    [func] made so far: while [waiting], exactly one timer is set, by the
    last call of [func], which returned, and it is due the delay after that
    call, with the [this] of that call; otherwise no timer is set, and if
    the last call of [func] returned, the delay since has elapsed. *)
Definition invariant (clock : Z) (s : Throttle.state T V)
  (log : list (Throttle.invocation T V)) : Prop :=
  Forall (fun i => Throttle.inv_time i <= clock) log
  /\ (if Throttle.waiting s then
        exists i, last log = Some i
                  /\ Throttle.returned func i
                  /\ Throttle.timers s
                     = [Throttle.Timer
                          (Throttle.inv_time i + Z.max 0 wait)
                          (Throttle.inv_this i)]
      else
        Throttle.timers s = []
        /\ forall i, last log = Some i ->
                     Throttle.returned func i ->
                     Throttle.inv_time i + Z.max 0 wait <= clock).

(** The calls of the throttled function made at the times and with the
    [this] and arguments listed. *)
Definition calls (window : list (Z * (T * list V)))
  : list (Z * Throttle.event T V) :=
  map (fun c => (c.1, Throttle.Call c.2.1 c.2.2)) window.

(** The arguments stored when a window ends: those of the last call in the
    window, or what was stored before if there was none. *)
Definition stored (before : option (list V)) (window : list (Z * (T * list V)))
  : option (list V) :=
  match last window with
  | Some c => Some c.2.2
  | None => before
  end.

End notions.
End ThrottleNotions.

(** ** The example of the documentation of throttle *)

Module ThrottleExample.

(** [const throttled = throttle(console.log, 1000)]: [console.log] returns. *)
Definition log (this : Js.value) (args : list Js.value) : completion unit :=
  Normal tt.

(** [throttled("A"); throttled("B"); throttled("C")], and the timer firing
    after one second. *)
Definition events : list (Z * Throttle.event Js.value Js.value) :=
  [ (0, Throttle.Call Js.VUndefined [Js.VString "A"]);
    (1, Throttle.Call Js.VUndefined [Js.VString "B"]);
    (2, Throttle.Call Js.VUndefined [Js.VString "C"]);
    (1000, Throttle.Fire 0) ].

(** A function that throws when it is given no argument. *)
Definition strict (this : Js.value) (args : list Js.value) : completion unit :=
  match args with
  | [] => Throw TypeError
  | _ :: _ => Normal tt
  end.

End ThrottleExample.

(** * Properties *)

(** ** Lists, [slice] and [includes] *)

Section curry_facts.
Context {V R : Type} `{EqDecision V}.
Variable placeholder : V.

Lemma includes_elem_of (x : V) (l : list V) :
  Curry.includes x l = true <-> x ∈ l.
Proof.
  unfold Curry.includes. rewrite existsb_exists. split.
  - intros (y & Hin & Heq). apply bool_decide_eq_true in Heq. subst y.
    by apply list_elem_of_In.
  - intros Hin. exists x. split; [by apply list_elem_of_In|].
    by apply bool_decide_eq_true.
Qed.

Lemma slice0_nonneg (n : Z) (l : list V) :
  0 <= n -> Curry.slice0 n l = take (Z.to_nat n) l.
Proof.
  intros Hn. unfold Curry.slice0.
  destruct (Z.ltb_spec n 0) as [?|_]; [lia|].
  destruct (Z.le_gt_cases n (Z.of_nat (length l))) as [Hle|Hgt].
  - by rewrite Z.min_l.
  - rewrite Z.min_r by lia. rewrite Nat2Z.id.
    rewrite !take_ge; [done| lia | lia].
Qed.

Lemma elem_of_take_lookup (x : V) (n : nat) (l : list V) :
  x ∈ take n l <-> exists i : nat, (i < n)%nat /\ l !! i = Some x.
Proof.
  rewrite list_elem_of_lookup. split.
  - intros (i & Hi). apply lookup_take_Some in Hi as [? ?]. eauto.
  - intros (i & Hlt & Hi). exists i. by apply lookup_take_Some.
Qed.

(** Readiness as the code computes it, against the specification's words. *)
Lemma isValid_ready (fn : Curry.target V R) (arg : list V) :
  0 <= Curry.fn_length fn ->
  Curry.isValid placeholder fn arg = true
  <-> CurrySpec.ready placeholder (Curry.fn_length fn) arg.
Proof.
  intros Hn. unfold Curry.isValid, CurrySpec.ready.
  rewrite andb_true_iff, negb_true_iff, Z.leb_le, slice0_nonneg by done.
  split; intros [Hlen Hno]; split; try done.
  - intros i Hi Hlook.
    assert (Curry.includes placeholder (take (Z.to_nat (Curry.fn_length fn)) arg) = true)
      as Hinc; [|congruence].
    apply includes_elem_of, elem_of_take_lookup. exists i. split; [lia|done].
  - apply not_true_is_false. intros Hinc.
    apply includes_elem_of, elem_of_take_lookup in Hinc as (i & Hi & Hlook).
    apply (Hno i); [lia|done].
Qed.

(** ** The merge step *)

Lemma fill_placeholder (x : V) (rest : list V) :
  Curry.fill placeholder placeholder (x :: rest) = (x, rest).
Proof. unfold Curry.fill. by rewrite bool_decide_eq_true_2. Qed.

Lemma fill_exhausted (item : V) :
  Curry.fill placeholder item [] = (item, []).
Proof. unfold Curry.fill. by case_bool_decide. Qed.

Lemma fill_value (item : V) (nextArg : list V) :
  item <> placeholder -> Curry.fill placeholder item nextArg = (item, nextArg).
Proof. intros Hne. unfold Curry.fill. by rewrite bool_decide_eq_false_2. Qed.

(** The array [arg.map] builds, and what [shift] leaves of [nextArg], are
    what the cursor walk of the specification gives. *)
Lemma resultArg_merge (pending newArgs : list V) (cursor : nat) :
  Curry.resultArg placeholder pending (drop cursor newArgs)
  = (fst (CurrySpec.merge placeholder pending newArgs cursor),
     drop (snd (CurrySpec.merge placeholder pending newArgs cursor)) newArgs).
Proof.
  revert cursor. induction pending as [|slot tl IH]; intros cursor; [done|].
  cbn [Curry.resultArg CurrySpec.merge]. unfold Curry.fill.
  case_bool_decide as Hslot.
  - destruct (newArgs !! cursor) as [v|] eqn:Hcur.
    + rewrite (drop_S _ _ _ Hcur). rewrite IH.
      by destruct (CurrySpec.merge placeholder tl newArgs (S cursor)).
    + rewrite (drop_ge newArgs cursor) by (by apply lookup_ge_None).
      specialize (IH cursor).
      rewrite (drop_ge newArgs cursor) in IH by (by apply lookup_ge_None).
      rewrite IH.
      by destruct (CurrySpec.merge placeholder tl newArgs cursor).
  - rewrite IH. by destruct (CurrySpec.merge placeholder tl newArgs cursor).
Qed.

Lemma merge_length (pending newArgs : list V) (cursor : nat) :
  length (fst (CurrySpec.merge placeholder pending newArgs cursor)) = length pending.
Proof.
  revert cursor. induction pending as [|slot tl IH]; intros cursor; [done|].
  cbn [CurrySpec.merge].
  destruct (if bool_decide (slot = placeholder) then newArgs !! cursor else None).
  - specialize (IH (S cursor)).
    destruct (CurrySpec.merge placeholder tl newArgs (S cursor)). simpl in *. lia.
  - specialize (IH cursor).
    destruct (CurrySpec.merge placeholder tl newArgs cursor). simpl in *. lia.
Qed.

Lemma resultArg_combined (pending newArgs : list V) :
  (let '(filled, rest) := Curry.resultArg placeholder pending newArgs in
   filled ++ rest) = CurrySpec.combined placeholder pending newArgs.
Proof.
  unfold CurrySpec.combined.
  pose proof (resultArg_merge pending newArgs 0) as Hm. rewrite drop_0 in Hm.
  rewrite Hm. by destruct (CurrySpec.merge placeholder pending newArgs 0).
Qed.

Lemma inner_combined (fn : Curry.target V R) (pending newArgs : list V) :
  Curry.inner placeholder fn pending newArgs
  = Curry.curried placeholder fn (CurrySpec.combined placeholder pending newArgs).
Proof.
  unfold Curry.inner. rewrite <- resultArg_combined.
  by destruct (Curry.resultArg placeholder pending newArgs).
Qed.

Lemma resultArg_nil (arg : list V) :
  Curry.resultArg placeholder arg [] = (arg, []).
Proof.
  induction arg as [|item tl IH]; [done|].
  cbn [Curry.resultArg]. by rewrite fill_exhausted, IH.
Qed.

Lemma resultArg_no_placeholder (arg nextArg : list V) :
  placeholder ∉ arg -> Curry.resultArg placeholder arg nextArg = (arg, nextArg).
Proof.
  induction arg as [|item tl IH]; [done|].
  intros Hno. apply not_elem_of_cons in Hno as [Hne Hno].
  cbn [Curry.resultArg]. rewrite fill_value by congruence. by rewrite IH.
Qed.

Lemma curried_ready_prefix (fn : Curry.target V R) (prefix extra : list V) :
  Z.of_nat (length prefix) = Curry.fn_length fn ->
  placeholder ∉ prefix ->
  Curry.curried placeholder fn (prefix ++ extra)
  = Curry.Invoked (Curry.fn_body fn (prefix ++ extra)).
Proof.
  intros Hlen Hno.
  assert (Curry.isValid placeholder fn (prefix ++ extra) = true) as Hv.
  { apply isValid_ready; [lia|]. split.
    - rewrite length_app. lia.
    - intros i Hi Hlook. rewrite lookup_app_l in Hlook by lia.
      apply Hno. by eapply list_elem_of_lookup_2. }
  unfold Curry.curried. by rewrite Hv.
Qed.

Lemma curried_short (fn : Curry.target V R) (arg : list V) :
  Z.of_nat (length arg) < Curry.fn_length fn ->
  Curry.curried placeholder fn arg = Curry.Returned (Curry.Inner fn arg).
Proof.
  intros Hlt. unfold Curry.curried, Curry.isValid.
  destruct (Z.leb_spec (Curry.fn_length fn) (Z.of_nat (length arg))); [lia|done].
Qed.

Lemma combined_nil_pending (newArgs : list V) :
  CurrySpec.combined placeholder [] newArgs = newArgs.
Proof. unfold CurrySpec.combined. simpl. by rewrite drop_0. Qed.

(** Every call is [curried] run on the combined list. *)
Lemma call_combined (c : Curry.closure V R) (args : list V) :
  Curry.call placeholder c args
  = match c with
    | Curry.Curried fn | Curry.Inner fn _ =>
        Curry.curried placeholder fn
          (CurrySpec.combined placeholder (Curry.pending c) args)
    end.
Proof.
  destruct c as [fn|fn arg]; simpl.
  - by rewrite combined_nil_pending.
  - apply inner_combined.
Qed.

End curry_facts.

(** ** Claims about the merge step and readiness *)

(** C1 -- Merge rule and placeholder fill-order.  The array [arg.map] builds
    for a call of a continuation is the cursor walk of the specification:
    each placeholder slot of [pending] takes the next unconsumed element of
    [newArgs], every other slot is kept, the length is that of [pending],
    and the call continues with [filled] followed by what was not consumed.
    The value taken from [newArgs] is placed whatever it is, the placeholder
    included.  With pending [[_, _, 3, 4]] and arity 3, the call [(1, _)]
    returns the continuation holding [[1, _, 3, 4]]. *)
Theorem C1_merge_fill_order {V R : Type} `{EqDecision V} (placeholder : V)
  (fn : Curry.target V R) (pending newArgs : list V) :
  (Curry.resultArg placeholder pending newArgs
   = (fst (CurrySpec.merge placeholder pending newArgs 0),
      drop (snd (CurrySpec.merge placeholder pending newArgs 0)) newArgs)
   /\ length (fst (CurrySpec.merge placeholder pending newArgs 0)) = length pending
   /\ Curry.call placeholder (Curry.Inner fn pending) newArgs
      = Curry.curried placeholder fn
          (fst (CurrySpec.merge placeholder pending newArgs 0)
           ++ drop (snd (CurrySpec.merge placeholder pending newArgs 0)) newArgs))
  /\ (forall (x : V) (rest : list V),
        Curry.fill placeholder placeholder (x :: rest) = (x, rest))
  /\ (forall (item : V) (nextArg : list V),
        item <> placeholder -> Curry.fill placeholder item nextArg = (item, nextArg))
  /\ (forall item : V, Curry.fill placeholder item [] = (item, []))
  /\ (forall f : list Js.value -> R,
        Curry.call Js.placeholder
          (Curry.Inner (Curry.Target 3 f)
             [Js.placeholder; Js.placeholder; Js.VNumber 3; Js.VNumber 4])
          [Js.VNumber 1; Js.placeholder]
        = Curry.Returned
            (Curry.Inner (Curry.Target 3 f)
               [Js.VNumber 1; Js.placeholder; Js.VNumber 3; Js.VNumber 4])).
Proof.
  split; [|split; [|split; [|split]]].
  - pose proof (resultArg_merge placeholder pending newArgs 0) as Hm.
    rewrite drop_0 in Hm. split; [done|]. split; [apply merge_length|].
    simpl. rewrite (inner_combined placeholder). unfold CurrySpec.combined.
    by destruct (CurrySpec.merge placeholder pending newArgs 0).
  - apply fill_placeholder.
  - apply fill_value.
  - apply fill_exhausted.
  - intros f. reflexivity.
Qed.

(** C2 -- Readiness checks only the arity window.  For a non-negative
    arity, [isValid] holds exactly when the list has at least [arity]
    elements and none of its first [arity] elements is the placeholder;
    [curried] then invokes the target with the whole list, and returns a
    continuation otherwise.  Whatever follows a placeholder-free prefix of
    [arity] elements, placeholders included, is forwarded: with arity 2,
    [[5, 6, PLACEHOLDER]] invokes [f(5, 6, PLACEHOLDER)]. *)
Theorem C2_readiness_arity_window {V R : Type} `{EqDecision V} (placeholder : V)
  (fn : Curry.target V R) (arg : list V) :
  0 <= Curry.fn_length fn ->
  (Curry.isValid placeholder fn arg = true
   <-> CurrySpec.ready placeholder (Curry.fn_length fn) arg)
  /\ (CurrySpec.ready placeholder (Curry.fn_length fn) arg ->
      Curry.curried placeholder fn arg = Curry.Invoked (Curry.fn_body fn arg))
  /\ (~ CurrySpec.ready placeholder (Curry.fn_length fn) arg ->
      Curry.curried placeholder fn arg = Curry.Returned (Curry.Inner fn arg))
  /\ (forall prefix extra : list V,
        Z.of_nat (length prefix) = Curry.fn_length fn ->
        placeholder ∉ prefix ->
        Curry.curried placeholder fn (prefix ++ extra)
        = Curry.Invoked (Curry.fn_body fn (prefix ++ extra)))
  /\ (forall f : list Js.value -> R,
        Curry.curried Js.placeholder (Curry.Target 2 f)
          [Js.VNumber 5; Js.VNumber 6; Js.placeholder]
        = Curry.Invoked (f [Js.VNumber 5; Js.VNumber 6; Js.placeholder])).
Proof.
  intros Hn. pose proof (isValid_ready placeholder fn arg Hn) as Hready.
  split; [done|]. split; [|split; [|split]].
  - intros Hr. apply Hready in Hr. unfold Curry.curried. by rewrite Hr.
  - intros Hr. unfold Curry.curried.
    destruct (Curry.isValid placeholder fn arg) eqn:Hv; [|done].
    exfalso. by apply Hr, Hready.
  - apply curried_ready_prefix.
  - intros f. reflexivity.
Qed.

Lemma C2_readiness_witness :
  Curry.isValid Js.placeholder (Curry.Target 2 Js.join)
    [Js.VNumber 5; Js.VNumber 6; Js.placeholder] = true
  <-> CurrySpec.ready Js.placeholder 2 [Js.VNumber 5; Js.VNumber 6; Js.placeholder].
Proof.
  refine (proj1 (C2_readiness_arity_window Js.placeholder
                   (Curry.Target 2 Js.join)
                   [Js.VNumber 5; Js.VNumber 6; Js.placeholder] _)).
  simpl. lia.
Defined.

(** ** Chains of calls without placeholders *)

Section chains.
Context {V R : Type} `{EqDecision V}.
Variable placeholder : V.

Lemma inner_no_placeholder (fn : Curry.target V R) (arg nextArg : list V) :
  placeholder ∉ arg ->
  Curry.inner placeholder fn arg nextArg
  = Curry.curried placeholder fn (arg ++ nextArg).
Proof.
  intros Hno. unfold Curry.inner. by rewrite resultArg_no_placeholder.
Qed.

Lemma chain_entry (fn : Curry.target V R) (g : list V) (rest : list (list V)) :
  Curry.chain placeholder (Curry.Curried fn) (g :: rest)
  = Curry.chain placeholder (Curry.Inner fn []) (g :: rest).
Proof. reflexivity. Qed.

Lemma concat_nonempty_length (groups : list (list V)) :
  groups <> [] -> Forall (fun g => g <> []) groups ->
  (0 < length (concat groups))%nat.
Proof.
  destruct groups as [|g rest]; [done|]. intros _ Hall.
  apply Forall_cons in Hall as [Hg _]. simpl. rewrite length_app.
  destruct g; [done|]. simpl. lia.
Qed.

(** A continuation holding a placeholder-free prefix, called with the rest
    of the arguments in any grouping, invokes the target at the last call. *)
Lemma chain_split (fn : Curry.target V R) (groups : list (list V)) :
  forall prefix : list V,
  groups <> [] -> Forall (fun g => g <> []) groups ->
  placeholder ∉ prefix ++ concat groups ->
  Z.of_nat (length (prefix ++ concat groups)) = Curry.fn_length fn ->
  Curry.chain placeholder (Curry.Inner fn prefix) groups
  = Normal (Curry.Invoked (Curry.fn_body fn (prefix ++ concat groups))).
Proof.
  induction groups as [|g rest IH]; intros prefix Hne Hall Hno Hlen; [done|].
  apply Forall_cons in Hall as [Hg Hall].
  cbn [Curry.chain Curry.call]. simpl in Hno, Hlen.
  rewrite inner_no_placeholder by set_solver.
  destruct rest as [|g' rest'].
  - simpl in *. rewrite app_nil_r in *.
    pose proof (curried_ready_prefix placeholder fn (prefix ++ g) [] Hlen Hno) as Hc.
    rewrite app_nil_r in Hc. by rewrite Hc.
  - pose proof (concat_nonempty_length (g' :: rest') ltac:(done) Hall) as Hpos.
    rewrite curried_short by (rewrite !length_app in *; lia).
    rewrite IH; [by rewrite <- app_assoc | done | done
                | by rewrite <- app_assoc | by rewrite <- app_assoc].
Qed.

Lemma simple_chain_split (fn : SimpleCurry.target V R) (groups : list (list V)) :
  forall prefix : list V,
  groups <> [] -> Forall (fun g => g <> []) groups ->
  Z.of_nat (length (prefix ++ concat groups)) = SimpleCurry.fn_length fn ->
  SimpleCurry.chain (SimpleCurry.Arrow fn prefix) groups
  = Normal (SimpleCurry.Invoked (SimpleCurry.fn_body fn (prefix ++ concat groups))).
Proof.
  induction groups as [|g rest IH]; intros prefix Hne Hall Hlen; [done|].
  apply Forall_cons in Hall as [Hg Hall].
  cbn [SimpleCurry.chain SimpleCurry.call]. simpl in Hlen.
  unfold SimpleCurry.arrow, SimpleCurry.curried.
  destruct rest as [|g' rest'].
  - simpl in *. rewrite app_nil_r in *.
    destruct (Z.leb_spec (SimpleCurry.fn_length fn) (Z.of_nat (length (prefix ++ g))));
      [done|lia].
  - pose proof (concat_nonempty_length (g' :: rest') ltac:(done) Hall) as Hpos.
    destruct (Z.leb_spec (SimpleCurry.fn_length fn) (Z.of_nat (length (prefix ++ g)))).
    { rewrite !length_app in *. lia. }
    rewrite IH; [by rewrite <- app_assoc | done | done | by rewrite <- app_assoc].
Qed.

Lemma simple_chain_entry (fn : SimpleCurry.target V R) (g : list V)
  (rest : list (list V)) :
  SimpleCurry.chain (SimpleCurry.Curried fn) (g :: rest)
  = SimpleCurry.chain (SimpleCurry.Arrow fn []) (g :: rest).
Proof. reflexivity. Qed.

End chains.

(** C3 -- Full-application equivalence.  [curry(f)(a1, ..., an)] for a
    target of arity [n] and [n] arguments none of which is the placeholder
    invokes [f] at that call and evaluates to [f(a1, ..., an)]; the plain
    curry does the same for any [n] arguments. *)
Theorem C3_full_application {V R : Type} `{EqDecision V} (placeholder : V)
  (args : list V) :
  (forall fn : Curry.target V R,
     Curry.fn_length fn = Z.of_nat (length args) ->
     placeholder ∉ args ->
     Curry.run placeholder fn [args]
     = Normal (Curry.Invoked (Curry.fn_body fn args)))
  /\ (forall fn : SimpleCurry.target V R,
        SimpleCurry.fn_length fn = Z.of_nat (length args) ->
        SimpleCurry.run fn [args]
        = Normal (SimpleCurry.Invoked (SimpleCurry.fn_body fn args))).
Proof.
  split.
  - intros fn Hlen Hno. unfold Curry.run, Curry.curry. simpl.
    pose proof (curried_ready_prefix placeholder fn args [] (eq_sym Hlen) Hno) as Hc.
    rewrite app_nil_r in Hc. by rewrite Hc.
  - intros fn Hlen. unfold SimpleCurry.run, SimpleCurry.curry. simpl.
    unfold SimpleCurry.curried.
    destruct (Z.leb_spec (SimpleCurry.fn_length fn) (Z.of_nat (length args)));
      [done|lia].
Qed.

Lemma C3_full_application_witness :
  Curry.run Js.placeholder Js.join_target
    [[Js.VNumber 1; Js.VNumber 2; Js.VNumber 3]]
  = Normal (Curry.Invoked (Js.join [Js.VNumber 1; Js.VNumber 2; Js.VNumber 3])).
Proof.
  refine (proj1 (C3_full_application (R := completion Js.value) Js.placeholder
                   [Js.VNumber 1; Js.VNumber 2; Js.VNumber 3])
            Js.join_target _ _).
  - reflexivity.
  - intros Hin. repeat (apply elem_of_cons in Hin as [Hin|Hin]; [done|]).
    by apply elem_of_nil in Hin.
Defined.

(** C4 -- Split-application equivalence.  For arguments [a1..an] of a target
    of arity [n], given in consecutive non-empty groups over successive
    calls, the last call evaluates to [f(a1, ..., an)] whatever the
    grouping (no placeholder among the arguments for the curry that has
    them; any arguments for the plain curry).  [curriedSum(1,2,3)],
    [curriedSum(1,2)(3)] and [curriedSum(1)(2)(3)] are all 6, under both
    implementations. *)
Theorem C4_split_application {V R : Type} `{EqDecision V} (placeholder : V)
  (groups : list (list V)) :
  groups <> [] ->
  Forall (fun g => g <> []) groups ->
  (forall fn : Curry.target V R,
     Curry.fn_length fn = Z.of_nat (length (concat groups)) ->
     placeholder ∉ concat groups ->
     Curry.run placeholder fn groups
     = Normal (Curry.Invoked (Curry.fn_body fn (concat groups))))
  /\ (forall fn : SimpleCurry.target V R,
        SimpleCurry.fn_length fn = Z.of_nat (length (concat groups)) ->
        SimpleCurry.run fn groups
        = Normal (SimpleCurry.Invoked (SimpleCurry.fn_body fn (concat groups))))
  /\ (let one := Js.VNumber 1 in
      let two := Js.VNumber 2 in
      let three := Js.VNumber 3 in
      let six := Normal (Js.VNumber 6) in
      Curry.run Js.placeholder Js.sum_target [[one; two; three]]
      = Normal (Curry.Invoked six)
      /\ Curry.run Js.placeholder Js.sum_target [[one; two]; [three]]
         = Normal (Curry.Invoked six)
      /\ Curry.run Js.placeholder Js.sum_target [[one]; [two]; [three]]
         = Normal (Curry.Invoked six)
      /\ SimpleCurry.run Js.sum_simple_target [[one; two; three]]
         = Normal (SimpleCurry.Invoked six)
      /\ SimpleCurry.run Js.sum_simple_target [[one; two]; [three]]
         = Normal (SimpleCurry.Invoked six)
      /\ SimpleCurry.run Js.sum_simple_target [[one]; [two]; [three]]
         = Normal (SimpleCurry.Invoked six)).
Proof.
  intros Hne Hall. split; [|split].
  - intros fn Hlen Hno. unfold Curry.run, Curry.curry. simpl.
    destruct groups as [|g rest]; [done|]. rewrite chain_entry.
    by apply (chain_split placeholder fn (g :: rest) []).
  - intros fn Hlen. unfold SimpleCurry.run, SimpleCurry.curry. simpl.
    destruct groups as [|g rest]; [done|]. rewrite simple_chain_entry.
    by apply (simple_chain_split fn (g :: rest) []).
  - repeat split; reflexivity.
Qed.

Lemma C4_split_application_witness :
  Curry.run Js.placeholder Js.sum_target
    [[Js.VNumber 1]; [Js.VNumber 2; Js.VNumber 3]]
  = Normal (Curry.Invoked
              (Js.sum [Js.VNumber 1; Js.VNumber 2; Js.VNumber 3])).
Proof.
  refine (proj1 (C4_split_application (R := completion Js.value) Js.placeholder
                   [[Js.VNumber 1]; [Js.VNumber 2; Js.VNumber 3]] _ _)
            Js.sum_target _ _).
  - done.
  - repeat constructor; done.
  - reflexivity.
  - vm_compute. intros Hin. repeat (apply elem_of_cons in Hin as [Hin|Hin]; [done|]).
    by apply elem_of_nil in Hin.
Defined.

(** C5 -- End-to-end placeholder scenario.  For
    [join = (a, b, c) => `${a}_${b}_${c}`], the chain
    [curry(join)(_, _, 3, 4)(1, _)(2, 5)] returns continuations at its first
    two calls and at the third invokes [join(1, 2, 3, 4, 5)], which is the
    string ["1_2_3"]: the arguments 4 and 5 are passed and not used. *)
Theorem C5_end_to_end_placeholder :
  let _' := Js.placeholder in
  let n := Js.VNumber in
  Curry.run _' Js.join_target [[_'; _'; n 3; n 4]; [n 1; _']; [n 2; n 5]]
  = Normal (Curry.Invoked (Normal (Js.VString "1_2_3")))
  /\ Curry.run _' Js.join_target [[_'; _'; n 3; n 4]]
     = Normal (Curry.Returned (Curry.Inner Js.join_target [_'; _'; n 3; n 4]))
  /\ Curry.run _' Js.join_target [[_'; _'; n 3; n 4]; [n 1; _']]
     = Normal (Curry.Returned (Curry.Inner Js.join_target [n 1; _'; n 3; n 4]))
  /\ Curry.call _' (Curry.Inner Js.join_target [n 1; _'; n 3; n 4]) [n 2; n 5]
     = Curry.Invoked (Js.join [n 1; n 2; n 3; n 4; n 5])
  /\ Js.join [n 1; n 2; n 3; n 4; n 5] = Normal (Js.VString "1_2_3").
Proof. repeat split; reflexivity. Qed.

(** ** Continuations are never ready *)

Section invariant.
Context {V R : Type} `{EqDecision V}.
Variable placeholder : V.

Lemma curried_cases (fn : Curry.target V R) (arg : list V) :
  (Curry.isValid placeholder fn arg = true
   /\ Curry.curried placeholder fn arg = Curry.Invoked (Curry.fn_body fn arg))
  \/ (Curry.isValid placeholder fn arg = false
      /\ Curry.curried placeholder fn arg = Curry.Returned (Curry.Inner fn arg)).
Proof.
  unfold Curry.curried. destruct (Curry.isValid placeholder fn arg); auto.
Qed.

Lemma reachable_target (fn : Curry.target V R) (c : Curry.closure V R) :
  CurrySpec.reachable placeholder fn c ->
  match c with
  | Curry.Curried fn' => fn' = fn
  | Curry.Inner fn' arg => fn' = fn /\ Curry.isValid placeholder fn arg = false
  end.
Proof.
  induction 1 as [|c args c' Hreach IH Hcall]; [done|].
  rewrite call_combined in Hcall.
  assert (match c with Curry.Curried f | Curry.Inner f _ => f = fn end) as Hfn.
  { destruct c; [done|]. by destruct IH. }
  destruct c as [fn0|fn0 arg0]; subst fn0;
    match type of Hcall with
    | Curry.curried _ _ ?l = _ =>
        destruct (curried_cases fn l) as [[_ Hc]|[Hv Hc]];
        rewrite Hc in Hcall; [done|]; injection Hcall as <-; done
    end.
Qed.

Lemma not_valid_cases (fn : Curry.target V R) (arg : list V) :
  0 <= Curry.fn_length fn ->
  Curry.isValid placeholder fn arg = false ->
  Z.of_nat (length arg) < Curry.fn_length fn
  \/ exists i : nat, Z.of_nat i < Curry.fn_length fn /\ arg !! i = Some placeholder.
Proof.
  intros Hn. unfold Curry.isValid. rewrite andb_false_iff, negb_false_iff.
  intros [Hlen|Hinc].
  - left. by apply Z.leb_gt.
  - right. rewrite slice0_nonneg in Hinc by done.
    apply includes_elem_of, elem_of_take_lookup in Hinc as (i & Hi & Hlook).
    exists i. split; [lia|done].
Qed.

Lemma simple_reachable_arrow (fn : SimpleCurry.target V R)
  (c : SimpleCurry.closure V R) :
  CurrySpec.simple_reachable fn c ->
  match c with
  | SimpleCurry.Curried fn' => fn' = fn
  | SimpleCurry.Arrow fn' arg =>
      fn' = fn /\ Z.of_nat (length arg) < SimpleCurry.fn_length fn
  end.
Proof.
  induction 1 as [|c args c' Hreach IH Hcall]; [done|].
  destruct c as [fn0|fn0 arg0]; simpl in Hcall;
    [subst fn0 | destruct IH as [-> _]; unfold SimpleCurry.arrow in Hcall];
    unfold SimpleCurry.curried in Hcall;
    match type of Hcall with
    | (if ?b then _ else _) = _ => destruct b eqn:Hb; [done|]
    end; injection Hcall as <-; (split; [done|]); by apply Z.leb_gt.
Qed.

End invariant.

(** C6 (as the code has it) -- Construction validates nothing.  [curry(fn)]
    returns the entry point for every target function, whatever the value
    of [fn.length], and never raises; [fn.length] is read by the readiness
    check of each call, so the first call of the entry point is [curried]
    on the arguments of that call. *)
Theorem C6_construction_never_fails {V R : Type} `{EqDecision V}
  (placeholder : V) (fn : Curry.target V R) :
  Curry.curry fn = Normal (Curry.Curried fn)
  /\ (forall e : error, Curry.curry fn <> Throw e)
  /\ (forall args : list V,
        Curry.run placeholder fn [args]
        = Normal (Curry.curried placeholder fn args)).
Proof.
  split; [done|]. split; [done|].
  intros args. unfold Curry.run, Curry.curry. simpl.
  by destruct (Curry.curried placeholder fn args).
Qed.

(** C6, the claim as stated, fails: a target whose [length] is -1 is
    accepted at construction, and the function returned performs partial
    application ([(_, 1)] gives a continuation, which [(2)] completes). *)
Lemma C6_negative_arity_accepted :
  let fn := Curry.Target (-1) Js.join in
  Curry.fn_length fn = -1
  /\ Curry.curry fn = Normal (Curry.Curried fn)
  /\ ~ (exists e : error, Curry.curry fn = Throw e)
  /\ Curry.run Js.placeholder fn [[Js.placeholder; Js.VNumber 1]]
     = Normal (Curry.Returned
                 (Curry.Inner fn [Js.placeholder; Js.VNumber 1]))
  /\ Curry.run Js.placeholder fn [[Js.placeholder; Js.VNumber 1]; [Js.VNumber 2]]
     = Normal (Curry.Invoked (Js.join [Js.VNumber 2; Js.VNumber 1])).
Proof.
  cbv zeta. split; [done|]. split; [done|]. split; [by intros [e He]|].
  split; reflexivity.
Qed.

(** C7 -- A call with zero arguments is an identity.  The merge and append
    steps leave the pending list as it is, so the call is [curried] on the
    pending list: it invokes the target only if that list is ready, and
    otherwise returns a continuation holding the same list.  A continuation
    a program can reach is never ready, so calling it with no argument
    returns an equal continuation.  The entry point, whose pending list is
    empty, invokes a zero-arity target at once and returns a continuation
    holding the empty list when the arity is positive. *)
Theorem C7_zero_argument_call {V R : Type} `{EqDecision V} (placeholder : V)
  (fn : Curry.target V R) (arg : list V) :
  Curry.resultArg placeholder arg [] = (arg, [])
  /\ Curry.call placeholder (Curry.Inner fn arg) []
     = Curry.curried placeholder fn arg
  /\ (Curry.isValid placeholder fn arg = false ->
      Curry.call placeholder (Curry.Inner fn arg) []
      = Curry.Returned (Curry.Inner fn arg))
  /\ (forall r : R,
        Curry.call placeholder (Curry.Inner fn arg) [] = Curry.Invoked r ->
        Curry.isValid placeholder fn arg = true)
  /\ (CurrySpec.reachable placeholder fn (Curry.Inner fn arg) ->
      Curry.call placeholder (Curry.Inner fn arg) []
      = Curry.Returned (Curry.Inner fn arg))
  /\ (0 < Curry.fn_length fn ->
      Curry.call placeholder (Curry.Curried fn) []
      = Curry.Returned (Curry.Inner fn (Curry.pending (Curry.Curried fn))))
  /\ (forall r : R,
        Curry.call placeholder (Curry.Curried fn) [] = Curry.Invoked r ->
        Curry.isValid placeholder fn (Curry.pending (Curry.Curried fn)) = true)
  /\ (Curry.fn_length fn = 0 ->
      Curry.call placeholder (Curry.Curried fn) []
      = Curry.Invoked (Curry.fn_body fn [])
      /\ Curry.run placeholder fn [[]]
         = Normal (Curry.Invoked (Curry.fn_body fn []))).
Proof.
  assert (Curry.call placeholder (Curry.Inner fn arg) []
          = Curry.curried placeholder fn arg) as Hcall.
  { simpl. unfold Curry.inner. rewrite resultArg_nil. by rewrite app_nil_r. }
  split; [apply resultArg_nil|]. split; [done|].
  rewrite Hcall. repeat split.
  - intros Hv. unfold Curry.curried. by rewrite Hv.
  - intros r. unfold Curry.curried.
    by destruct (Curry.isValid placeholder fn arg).
  - intros Hreach. apply reachable_target in Hreach as [_ Hv].
    unfold Curry.curried. by rewrite Hv.
  - intros Hpos. simpl. by apply curried_short.
  - intros r. simpl. unfold Curry.curried.
    by destruct (Curry.isValid placeholder fn []).
  - pose proof (curried_ready_prefix placeholder fn [] []) as Hc.
    simpl in *. apply Hc; [lia|]. apply not_elem_of_nil.
  - unfold Curry.run, Curry.curry. simpl.
    pose proof (curried_ready_prefix placeholder fn [] []) as Hc.
    simpl in *. rewrite Hc; [done|lia|]. apply not_elem_of_nil.
Qed.

Lemma C7_zero_argument_witness :
  Curry.call Js.placeholder
    (Curry.Inner Js.join_target [Js.VNumber 1; Js.placeholder]) []
  = Curry.Returned (Curry.Inner Js.join_target [Js.VNumber 1; Js.placeholder]).
Proof.
  refine (proj1 (proj2 (proj2 (C7_zero_argument_call Js.placeholder
                                 Js.join_target
                                 [Js.VNumber 1; Js.placeholder]))) _).
  reflexivity.
Defined.

(** C9 -- Every continuation the engine returns holds a list that is not
    ready.  For a function value [c] a program can reach from [curry(fn)]:
    if [c] is a continuation, [isValid] fails on its pending list (for a
    non-negative arity: the list is shorter than the arity, or one of its
    first [arity] slots is the placeholder); and a call of [c] invokes the
    target when the combined list is ready and returns a continuation
    holding the combined list when it is not, never both.  In the plain
    curry a continuation holds fewer arguments than the arity. *)
Theorem C9_continuation_not_ready {V R : Type} `{EqDecision V} (placeholder : V)
  (fn : Curry.target V R) (c : Curry.closure V R) :
  CurrySpec.reachable placeholder fn c ->
  (forall (fn' : Curry.target V R) (arg : list V),
     c = Curry.Inner fn' arg ->
     fn' = fn
     /\ Curry.isValid placeholder fn arg = false
     /\ (0 <= Curry.fn_length fn ->
         Z.of_nat (length arg) < Curry.fn_length fn
         \/ exists i : nat,
              Z.of_nat i < Curry.fn_length fn /\ arg !! i = Some placeholder))
  /\ (forall args : list V,
        (Curry.isValid placeholder fn
           (CurrySpec.combined placeholder (Curry.pending c) args) = true
         /\ Curry.call placeholder c args
            = Curry.Invoked
                (Curry.fn_body fn
                   (CurrySpec.combined placeholder (Curry.pending c) args)))
        \/ (Curry.isValid placeholder fn
              (CurrySpec.combined placeholder (Curry.pending c) args) = false
            /\ Curry.call placeholder c args
               = Curry.Returned
                   (Curry.Inner fn
                      (CurrySpec.combined placeholder (Curry.pending c) args))))
  /\ (forall (sfn : SimpleCurry.target V R) (sc : SimpleCurry.closure V R),
        CurrySpec.simple_reachable sfn sc ->
        forall (fn' : SimpleCurry.target V R) (arg : list V),
          sc = SimpleCurry.Arrow fn' arg ->
          fn' = sfn /\ Z.of_nat (length arg) < SimpleCurry.fn_length sfn).
Proof.
  intros Hreach. pose proof (reachable_target placeholder fn c Hreach) as Hc.
  split; [|split].
  - intros fn' arg ->. destruct Hc as [-> Hv]. split; [done|]. split; [done|].
    intros Hn. by apply not_valid_cases.
  - intros args. rewrite call_combined.
    destruct c as [fn0|fn0 arg0]; [subst fn0|destruct Hc as [-> _]];
      apply curried_cases.
  - intros sfn sc Hs fn' arg ->. by apply simple_reachable_arrow in Hs.
Qed.

Lemma C9_continuation_witness :
  let fn := Js.join_target in
  let c := Curry.Inner fn
             [Js.placeholder; Js.placeholder; Js.VNumber 3; Js.VNumber 4] in
  CurrySpec.reachable Js.placeholder fn c
  /\ Curry.isValid Js.placeholder fn (Curry.pending c) = false.
Proof.
  cbv zeta.
  assert (CurrySpec.reachable Js.placeholder Js.join_target
            (Curry.Inner Js.join_target
               [Js.placeholder; Js.placeholder; Js.VNumber 3; Js.VNumber 4]))
    as Hreach.
  { eapply CurrySpec.reachable_call; [apply CurrySpec.reachable_entry|].
    instantiate (1 := [Js.placeholder; Js.placeholder; Js.VNumber 3; Js.VNumber 4]).
    reflexivity. }
  split; [exact Hreach|].
  exact (proj1 (proj2 (proj1 (C9_continuation_not_ready Js.placeholder
                                Js.join_target _ Hreach) _ _ eq_refl))).
Defined.

(** ** The store-level engine computes what the list-level one does *)

Section store_facts.
Context {V R : Type} `{EqDecision V}.
Variable placeholder undefined : V.

Lemma preserved_refl (s : CurryStore.store V) : CurryStore.preserved s s.
Proof. by intros l _. Qed.

Lemma preserved_dom (s s' : CurryStore.store V) (l : CurryStore.loc) :
  CurryStore.preserved s s' -> l ∈ dom s -> l ∈ dom s'.
Proof.
  intros Hp Hl. apply elem_of_dom. rewrite (Hp l Hl). by apply elem_of_dom.
Qed.

Lemma preserved_trans (s1 s2 s3 : CurryStore.store V) :
  CurryStore.preserved s1 s2 -> CurryStore.preserved s2 s3 ->
  CurryStore.preserved s1 s3.
Proof.
  intros H12 H23 l Hl. rewrite (H23 l); [by apply H12|].
  by eapply preserved_dom.
Qed.

Lemma preserved_alloc (s : CurryStore.store V) (vs : list V) :
  CurryStore.preserved s (<[fresh (dom s) := vs]> s).
Proof.
  intros l Hl. rewrite lookup_insert_ne; [done|].
  intros <-. by apply (is_fresh (dom s)).
Qed.

Lemma fresh_lookup (s : CurryStore.store V) : s !! fresh (dom s) = None.
Proof. apply not_elem_of_dom, is_fresh. Qed.

Lemma fresh_ne (s : CurryStore.store V) (l : CurryStore.loc) (vs : list V) :
  s !! l = Some vs -> l <> fresh (dom s).
Proof. intros Hl ->. by rewrite fresh_lookup in Hl. Qed.

Lemma bind_some {A B} (m : CurryStore.M A) (k : A -> CurryStore.M B)
  (s s1 : CurryStore.store V) (a : A) :
  m s = Some (a, s1) -> CurryStore.bind m k s = k a s1.
Proof. intros Hm. unfold CurryStore.bind. by rewrite Hm. Qed.

(** One step of a computation: [H] says what the first operation gives. *)
Ltac run_step H := rewrite (bind_some _ _ _ _ _ H).

Lemma elements_some (l : CurryStore.loc) (vs : list V) (s : CurryStore.store V) :
  s !! l = Some vs -> CurryStore.elements l s = Some (vs, s).
Proof. intros Hl. unfold CurryStore.elements. by rewrite Hl. Qed.

Lemma array_length_some (l : CurryStore.loc) (vs : list V) (s : CurryStore.store V) :
  s !! l = Some vs -> CurryStore.array_length l s = Some (length vs, s).
Proof.
  intros Hl. unfold CurryStore.array_length.
  by run_step (elements_some l vs s Hl).
Qed.

Lemma get_index_some (l : CurryStore.loc) (vs : list V) (k : nat) (v : V)
  (s : CurryStore.store V) :
  s !! l = Some vs -> vs !! k = Some v ->
  CurryStore.get_index undefined l k s = Some (v, s).
Proof.
  intros Hl Hk. unfold CurryStore.get_index.
  run_step (elements_some l vs s Hl).
  unfold CurryStore.ret. by rewrite Hk.
Qed.

Lemma push_some (l : CurryStore.loc) (vs : list V) (v : V) (s : CurryStore.store V) :
  s !! l = Some vs ->
  CurryStore.push l v s = Some (tt, <[l := vs ++ [v]]> s).
Proof. intros Hl. unfold CurryStore.push. by rewrite Hl. Qed.

Lemma fill_store (nextArg : CurryStore.loc) (item : V) (na : list V) (s : CurryStore.store V) :
  s !! nextArg = Some na ->
  CurryStore.fill placeholder undefined nextArg item s
  = Some ((Curry.fill placeholder item na).1,
          <[nextArg := (Curry.fill placeholder item na).2]> s).
Proof.
  intros Hnext. unfold CurryStore.fill, Curry.fill.
  case_bool_decide; simpl.
  - run_step (array_length_some nextArg na s Hnext).
    unfold CurryStore.ret, CurryStore.shift.
    destruct na as [|x rest]; simpl.
    + by rewrite insert_id.
    + by rewrite Hnext.
  - unfold CurryStore.ret. by rewrite insert_id.
Qed.

Lemma map_from_spec (arg nextArg res : CurryStore.loc) (pend : list V) :
  arg <> nextArg -> arg <> res -> nextArg <> res ->
  forall (n k : nat) (na acc : list V) (s : CurryStore.store V),
  s !! arg = Some pend -> s !! nextArg = Some na -> s !! res = Some acc ->
  (k + n <= length pend)%nat ->
  exists s' : CurryStore.store V,
    CurryStore.map_from placeholder undefined arg nextArg res k n s = Some (tt, s')
    /\ s' !! res
       = Some (acc ++ fst (Curry.resultArg placeholder (take n (drop k pend)) na))
    /\ s' !! nextArg
       = Some (snd (Curry.resultArg placeholder (take n (drop k pend)) na))
    /\ forall l, l <> res -> l <> nextArg -> s' !! l = s !! l.
Proof.
  intros Han Har Hnr. induction n as [|n IH]; intros k na acc s Harg Hnext Hres Hk.
  - exists s. simpl. rewrite app_nil_r. done.
  - assert (is_Some (pend !! k)) as [item Hitem] by (apply lookup_lt_is_Some; lia).
    rewrite (drop_S _ _ _ Hitem). cbn [take Curry.resultArg CurryStore.map_from].
    run_step (get_index_some arg pend k item s Harg Hitem).
    run_step (fill_store nextArg item na s Hnext).
    destruct (Curry.fill placeholder item na) as [v na'] eqn:Hfill. cbn [fst snd].
    assert (<[nextArg := na']> s !! res = Some acc) as Hres1
      by (by rewrite lookup_insert_ne).
    run_step (push_some res acc v _ Hres1).
    destruct (IH (S k) na' (acc ++ [v])
                (<[res := acc ++ [v]]> (<[nextArg := na']> s)))
      as (s' & Hrun & Hr & Hn & Hother).
    + by rewrite !lookup_insert_ne.
    + rewrite lookup_insert_ne by done. by rewrite lookup_insert_eq.
    + by rewrite lookup_insert_eq.
    + lia.
    + exists s'. rewrite Hrun.
      destruct (Curry.resultArg placeholder (take n (drop (S k) pend)) na')
        as [xs na''] eqn:Hrest. cbn [fst snd] in *.
      split; [done|]. split; [by rewrite Hr, <- app_assoc|]. split; [done|].
      intros l Hl1 Hl2. rewrite Hother by done. by rewrite !lookup_insert_ne.
Qed.

Lemma isValid_store (fn : Curry.target V R) (arg : CurryStore.loc)
  (args : list V) (s : CurryStore.store V) :
  s !! arg = Some args ->
  exists s' : CurryStore.store V,
    CurryStore.isValid placeholder fn arg s
    = Some (Curry.isValid placeholder fn args, s')
    /\ CurryStore.preserved s s'.
Proof.
  intros Harg. unfold CurryStore.isValid, Curry.isValid.
  run_step (array_length_some arg args s Harg).
  destruct (Curry.fn_length fn <=? Z.of_nat (length args)); cbn [andb].
  - unfold CurryStore.slice0.
    rewrite (bind_some _ _ _ _ _
               (bind_some _ _ _ _ _ (elements_some arg args s Harg))).
    set (sl := fresh (dom s)).
    set (s1 := <[sl := Curry.slice0 (Curry.fn_length fn) args]> s).
    assert (s1 !! sl = Some (Curry.slice0 (Curry.fn_length fn) args)) as Hsl
      by apply lookup_insert_eq.
    unfold CurryStore.includes.
    rewrite (bind_some _ _ _ _ _
               (bind_some _ _ _ _ _ (elements_some sl _ s1 Hsl))).
    exists s1. split; [done|]. apply preserved_alloc.
  - exists s. split; [done|]. apply preserved_refl.
Qed.

Lemma curried_store (fn : Curry.target V R) (args : list V) (s : CurryStore.store V) :
  exists (o : CurryStore.outcome V R) (s' : CurryStore.store V),
    CurryStore.curried placeholder fn args s = Some (o, s')
    /\ CurryStore.preserved s s'
    /\ CurryStore.read_outcome s' o
       = Some (Curry.curried placeholder fn args).
Proof.
  unfold CurryStore.curried.
  set (arg := fresh (dom s)). set (s1 := <[arg := args]> s).
  assert (CurryStore.new_array args s = Some (arg, s1)) as Hnew by done.
  run_step Hnew.
  assert (s1 !! arg = Some args) as Harg by apply lookup_insert_eq.
  assert (CurryStore.preserved s s1) as Hp1 by apply preserved_alloc.
  destruct (isValid_store fn arg args s1 Harg) as (s2 & Hvalid & Hp2).
  run_step Hvalid.
  assert (s2 !! arg = Some args) as Harg2.
  { rewrite (Hp2 arg); [done|]. by apply elem_of_dom. }
  unfold Curry.curried.
  destruct (Curry.isValid placeholder fn args).
  - run_step (elements_some arg args s2 Harg2).
    eexists _, s2. split; [done|]. split; [by eapply preserved_trans|done].
  - eexists _, s2. split; [done|]. split; [by eapply preserved_trans|].
    simpl. by rewrite Harg2.
Qed.

Lemma inner_store (fn : Curry.target V R) (arg : CurryStore.loc)
  (pend args : list V) (s : CurryStore.store V) :
  s !! arg = Some pend ->
  exists (o : CurryStore.outcome V R) (s' : CurryStore.store V),
    CurryStore.inner placeholder undefined fn arg args s = Some (o, s')
    /\ CurryStore.preserved s s'
    /\ CurryStore.read_outcome s' o
       = Some (Curry.inner placeholder fn pend args).
Proof.
  intros Harg. unfold CurryStore.inner.
  set (nextArg := fresh (dom s)). set (s1 := <[nextArg := args]> s).
  assert (CurryStore.new_array args s = Some (nextArg, s1)) as Hnew by done.
  run_step Hnew.
  assert (arg <> nextArg) as Han by (by eapply fresh_ne).
  assert (s1 !! arg = Some pend) as Harg1 by (by unfold s1; rewrite lookup_insert_ne).
  assert (s1 !! nextArg = Some args) as Hnext1 by apply lookup_insert_eq.
  unfold CurryStore.map_fill.
  set (res := fresh (dom s1)). set (s2 := <[res := []]> s1).
  assert (arg <> res) as Har by (by eapply fresh_ne).
  assert (nextArg <> res) as Hnr by (by eapply fresh_ne).
  assert (s2 !! arg = Some pend) as Harg2 by (by unfold s2; rewrite lookup_insert_ne).
  assert (s2 !! nextArg = Some args) as Hnext2
    by (by unfold s2; rewrite lookup_insert_ne).
  assert (s2 !! res = Some []) as Hres2 by apply lookup_insert_eq.
  destruct (map_from_spec arg nextArg res pend Han Har Hnr (length pend) 0 args []
              s2 Harg2 Hnext2 Hres2 ltac:(lia))
    as (s3 & Hrun & Hr & Hn & Hother).
  rewrite drop_0, firstn_all in Hr, Hn. simpl in Hr.
  assert (CurryStore.map_fill placeholder undefined arg nextArg s1 = Some (res, s3))
    as Hmap.
  { unfold CurryStore.map_fill.
    run_step (array_length_some arg pend s1 Harg1).
    assert (CurryStore.new_array [] s1 = Some (res, s2)) as Hnew2 by done.
    run_step Hnew2.
    by run_step Hrun. }
  unfold CurryStore.map_fill in Hmap. run_step Hmap.
  run_step (elements_some res _ s3 Hr).
  run_step (elements_some nextArg _ s3 Hn).
  unfold Curry.inner.
  destruct (Curry.resultArg placeholder pend args) as [filled rest]. cbn [fst snd].
  destruct (curried_store fn (filled ++ rest) s3) as (o & s4 & Hc & Hp & Hread).
  exists o, s4. split; [done|]. split; [|done].
  apply preserved_trans with s3; [|done].
  intros l Hl.
  assert (l <> nextArg) as Hl1 by (intros ->; by apply (is_fresh (dom s))).
  assert (l <> res) as Hl2.
  { intros ->. apply (is_fresh (dom s1)).
    by apply (preserved_dom s s1); [apply preserved_alloc|]. }
  rewrite Hother by done. unfold s2, s1. by rewrite !lookup_insert_ne.
Qed.

Lemma call_store (c : CurryStore.closure V R) (pc : Curry.closure V R)
  (args : list V) (s : CurryStore.store V) :
  CurryStore.read_closure s c = Some pc ->
  exists (o : CurryStore.outcome V R) (s' : CurryStore.store V),
    CurryStore.call placeholder undefined c args s = Some (o, s')
    /\ CurryStore.preserved s s'
    /\ CurryStore.read_outcome s' o = Some (Curry.call placeholder pc args).
Proof.
  destruct c as [fn|fn arg]; simpl.
  - intros [= <-]. apply curried_store.
  - destruct (s !! arg) as [pend|] eqn:Harg; [|done].
    intros [= <-]. by apply inner_store.
Qed.

Lemma read_closure_preserved (s s' : CurryStore.store V) (c : CurryStore.closure V R)
  (pc : Curry.closure V R) :
  CurryStore.preserved s s' ->
  CurryStore.read_closure s c = Some pc ->
  CurryStore.read_closure s' c = Some pc.
Proof.
  intros Hp. destruct c as [fn|fn arg]; simpl; [done|].
  destruct (s !! arg) as [pend|] eqn:Harg; [|done].
  rewrite (Hp arg); [by rewrite Harg|]. by apply elem_of_dom.
Qed.

Lemma read_outcome_preserved (s s' : CurryStore.store V) (o : CurryStore.outcome V R)
  (po : Curry.outcome V R) :
  CurryStore.preserved s s' ->
  CurryStore.read_outcome s o = Some po ->
  CurryStore.read_outcome s' o = Some po.
Proof.
  intros Hp. destruct o as [r|c]; simpl; [done|].
  destruct (CurryStore.read_closure s c) as [pc|] eqn:Hc; [|done].
  by rewrite (read_closure_preserved s s' c pc Hp Hc).
Qed.

End store_facts.

(** C8 -- Calling a continuation mutates nothing that existed.  For a
    function value [c] of the engine in a store [s] and argument lists [X]
    and [Y]: the call [c(X)] leaves every array of [s] as it was, the
    pending list of [c] and the lists of all continuations returned before
    among them; calling [c] with [Y] afterwards gives what calling [c] with
    [Y] alone gives, both being the result computed from the pending list
    of [c] in [s]; and the second call leaves the result of the first one
    as it was. *)
Theorem C8_continuation_immutability {V R : Type} `{EqDecision V}
  (placeholder undefined : V) (c : CurryStore.closure V R)
  (pc : Curry.closure V R) (s : CurryStore.store V) (X Y : list V) :
  CurryStore.read_closure s c = Some pc ->
  exists (oX oY oY0 : CurryStore.outcome V R)
         (s1 s2 s0 : CurryStore.store V),
    CurryStore.call placeholder undefined c X s = Some (oX, s1)
    /\ CurryStore.preserved s s1
    /\ CurryStore.read_closure s1 c = Some pc
    /\ CurryStore.call placeholder undefined c Y s1 = Some (oY, s2)
    /\ CurryStore.call placeholder undefined c Y s = Some (oY0, s0)
    /\ CurryStore.read_outcome s2 oY = CurryStore.read_outcome s0 oY0
    /\ CurryStore.read_outcome s2 oY = Some (Curry.call placeholder pc Y)
    /\ CurryStore.read_outcome s1 oX = Some (Curry.call placeholder pc X)
    /\ CurryStore.read_outcome s2 oX = CurryStore.read_outcome s1 oX
    /\ CurryStore.preserved s1 s2.
Proof.
  intros Hc.
  destruct (call_store placeholder undefined c pc X s Hc)
    as (oX & s1 & HX & Hp1 & HrX).
  pose proof (read_closure_preserved s s1 c pc Hp1 Hc) as Hc1.
  destruct (call_store placeholder undefined c pc Y s1 Hc1)
    as (oY & s2 & HY & Hp2 & HrY).
  destruct (call_store placeholder undefined c pc Y s Hc)
    as (oY0 & s0 & HY0 & Hp0 & HrY0).
  exists oX, oY, oY0, s1, s2, s0.
  repeat (split; [done|]). split; [by rewrite HrY, HrY0|].
  repeat (split; [done|]). split; [|done].
  rewrite HrX. by eapply read_outcome_preserved.
Qed.

Lemma C8_continuation_witness :
  let fn := Js.join_target in
  let pend := [Js.placeholder; Js.placeholder; Js.VNumber 3; Js.VNumber 4] in
  let s : CurryStore.store Js.value := {[ 1%positive := pend ]} in
  let c := CurryStore.Inner fn 1%positive in
  exists (oX : CurryStore.outcome Js.value (completion Js.value))
         (s1 : CurryStore.store Js.value),
    CurryStore.call Js.placeholder Js.VUndefined c
      [Js.VNumber 1; Js.placeholder] s = Some (oX, s1)
    /\ s1 !! 1%positive = Some pend.
Proof.
  cbv zeta.
  assert (CurryStore.read_closure
            ({[ 1%positive :=
                  [Js.placeholder; Js.placeholder; Js.VNumber 3; Js.VNumber 4] ]}
               : CurryStore.store Js.value)
            (CurryStore.Inner Js.join_target 1%positive)
          = Some (Curry.Inner Js.join_target
                    [Js.placeholder; Js.placeholder; Js.VNumber 3; Js.VNumber 4]))
    as Hread.
  { simpl. rewrite lookup_singleton_eq. reflexivity. }
  destruct (C8_continuation_immutability Js.placeholder Js.VUndefined
              (CurryStore.Inner Js.join_target 1%positive)
              (Curry.Inner Js.join_target
                 [Js.placeholder; Js.placeholder; Js.VNumber 3; Js.VNumber 4])
              {[ 1%positive :=
                   [Js.placeholder; Js.placeholder; Js.VNumber 3; Js.VNumber 4] ]}
              [Js.VNumber 1; Js.placeholder] [Js.VNumber 2; Js.VNumber 5]
              Hread)
    as (oX & oY & oY0 & s1 & s2 & s0 & HX & Hp & _).
  exists oX, s1. split; [exact HX|].
  etrans; [apply Hp|apply lookup_singleton_eq].
  apply elem_of_dom. eexists. apply lookup_singleton_eq.
Defined.

(** ** flat: what each slot contributes *)

Section flat_facts.

(** Induction over nested arrays: the property holds of an array when it
    holds of every element present in it. *)
Lemma value_nested_ind (P : Flat.value -> Prop) :
  (forall p, P (Flat.Prim p)) ->
  (forall slots,
     Forall (fun slot => match slot with Some v => P v | None => True end) slots ->
     P (Flat.Array slots)) ->
  forall v, P v.
Proof.
  intros Hprim Harr. fix IH 1. intros [p|slots]; [apply Hprim|].
  apply Harr. induction slots as [|[item|] rest IHrest]; constructor; auto.
Qed.

Lemma visit_array (slots : list (option Flat.value)) (d : Flat.depth)
  (result : list Flat.value) :
  Flat.visit (Flat.Array slots) d result
  = if Flat.positive_depth d
    then Flat.flattenHelper slots (Flat.next_depth d) result
    else result ++ [Flat.Array slots].
Proof.
  cbn [Flat.visit]. destruct (Flat.positive_depth d); [|done].
  revert result. induction slots as [|[item|] rest IH]; intros result; simpl; auto.
Qed.

Lemma flattenHelper_concat (arr : list (option Flat.value)) (d : Flat.depth) :
  Forall (fun slot => match slot with
                      | Some v => forall d' result,
                          Flat.visit v d' result = result ++ Flat.contribution d' v
                      | None => True
                      end) arr ->
  forall result,
  Flat.flattenHelper arr d result
  = result ++ concat (map (Flat.slot_contribution d) arr).
Proof.
  induction 1 as [|[item|] rest Hitem Hrest IH]; intros result; simpl.
  - by rewrite app_nil_r.
  - rewrite IH, Hitem. by rewrite <- app_assoc.
  - apply IH.
Qed.

Lemma contribution_array (slots : list (option Flat.value)) (d : Flat.depth) :
  Flat.contribution d (Flat.Array slots)
  = if Flat.positive_depth d
    then concat (map (Flat.slot_contribution (Flat.next_depth d)) slots)
    else [Flat.Array slots].
Proof. reflexivity. Qed.

Lemma visit_contribution (v : Flat.value) :
  forall (d : Flat.depth) (result : list Flat.value),
  Flat.visit v d result = result ++ Flat.contribution d v.
Proof.
  induction v as [p|slots IH] using value_nested_ind; intros d result; [done|].
  rewrite visit_array, contribution_array.
  destruct (Flat.positive_depth d); [|done].
  by apply flattenHelper_concat.
Qed.

Lemma flattenHelper_contribution (arr : list (option Flat.value))
  (d : Flat.depth) (result : list Flat.value) :
  Flat.flattenHelper arr d result
  = result ++ concat (map (Flat.slot_contribution d) arr).
Proof.
  apply flattenHelper_concat. apply Forall_forall. intros [v|] _; [|done].
  apply visit_contribution.
Qed.

Lemma flat_contribution (arr : list (option Flat.value)) (depth_ : option Flat.depth) :
  Flat.flat arr depth_
  = concat (map (Flat.slot_contribution (default (Flat.Finite 1) depth_)) arr).
Proof. unfold Flat.flat. by rewrite flattenHelper_contribution. Qed.

Lemma flat_app (xs ys : list (option Flat.value)) (depth_ : option Flat.depth) :
  Flat.flat (xs ++ ys) depth_ = Flat.flat xs depth_ ++ Flat.flat ys depth_.
Proof. rewrite !flat_contribution. by rewrite map_app, concat_app. Qed.

Lemma flat_cons (slot : option Flat.value) (ys : list (option Flat.value))
  (depth_ : option Flat.depth) :
  Flat.flat (slot :: ys) depth_
  = Flat.slot_contribution (default (Flat.Finite 1) depth_) slot
    ++ Flat.flat ys depth_.
Proof. by rewrite !flat_contribution. Qed.

End flat_facts.

(** ** flat over the store: what is written, and what is computed *)

Section flat_store_facts.

Lemma push_lookup (result : FlatStore.loc) (v : FlatStore.value)
  (s s' : FlatStore.store) :
  FlatStore.push result v s = Some s' ->
  forall l, l <> result -> s' !! l = s !! l.
Proof.
  unfold FlatStore.push. destruct (s !! result) as [vs|]; [|done].
  intros [= <-] l Hl. by rewrite lookup_insert_ne.
Qed.

(** [flattenHelper] writes to [result] only. *)
Lemma flattenHelper_frame (fuel : nat) (result : FlatStore.loc) :
  forall (currentArr : FlatStore.loc) (d : Flat.depth) (i : nat)
         (s s' : FlatStore.store),
  FlatStore.flattenHelper fuel result currentArr d i s = Some s' ->
  forall l, l <> result -> s' !! l = s !! l.
Proof.
  induction fuel as [|fuel IH]; intros cur d i s s' Hrun l Hl; [done|].
  cbn [FlatStore.flattenHelper] in Hrun.
  destruct (s !! cur) as [arr|]; [|done].
  destruct (arr !! i) as [[[p|inner]|]|].
  - destruct (FlatStore.push result (FlatStore.Prim p) s) as [s1|] eqn:Hpush; [|done].
    rewrite (IH _ _ _ _ _ Hrun l Hl). by eapply push_lookup.
  - destruct (Flat.positive_depth d).
    + destruct (FlatStore.flattenHelper fuel result inner (Flat.next_depth d) 0 s)
        as [s1|] eqn:Hin; [|done].
      rewrite (IH _ _ _ _ _ Hrun l Hl). by eapply IH.
    + destruct (FlatStore.push result (FlatStore.Ref inner) s) as [s1|] eqn:Hpush;
        [|done].
      rewrite (IH _ _ _ _ _ Hrun l Hl). by eapply push_lookup.
  - by eapply IH.
  - by injection Hrun as <-.
Qed.

Lemma flat_frame (fuel : nat) (arr result : FlatStore.loc)
  (depth_ : option Flat.depth) (s s' : FlatStore.store) :
  FlatStore.flat fuel arr depth_ s = Some (result, s') ->
  (result ∉ dom s) /\ forall l, l ∈ dom s -> s' !! l = s !! l.
Proof.
  unfold FlatStore.flat.
  destruct (FlatStore.flattenHelper _ _ _ _ _ _) as [s1|] eqn:Hrun; [|done].
  intros [= <- <-]. split; [apply is_fresh|]. intros l Hl.
  assert (l <> fresh (dom s)) as Hne by (intros ->; by apply (is_fresh (dom s))).
  rewrite (flattenHelper_frame _ _ _ _ _ _ _ Hrun l Hne).
  by rewrite lookup_insert_ne.
Qed.

Lemma flattenHelper_acc (arr : list (option Flat.value)) (d : Flat.depth)
  (result : list Flat.value) :
  Flat.flattenHelper arr d result = result ++ Flat.flattenHelper arr d [].
Proof. by rewrite (flattenHelper_contribution arr d []), flattenHelper_contribution. Qed.

Section simulation.
Variable s0 : FlatStore.store.
Variable result : FlatStore.loc.
Hypothesis result_fresh : result ∉ dom s0.

Lemma agree_push (s : FlatStore.store) (vs : list (option FlatStore.value)) :
  (forall l, l ∈ dom s0 -> s !! l = s0 !! l) ->
  forall l, l ∈ dom s0 -> <[result := vs]> s !! l = s0 !! l.
Proof.
  intros Hs l Hl. rewrite lookup_insert_ne; [by apply Hs|].
  intros <-. by apply result_fresh.
Qed.

Lemma loop_appends (tslots : list (option Flat.value)) :
  Forall (fun slot =>
            match slot with
            | Some t =>
                forall l d slots, t = Flat.Array slots ->
                  FlatStore.represents s0 (FlatStore.Ref l) t ->
                  FlatStore.appends s0 result l d 0 (Flat.flattenHelper slots d [])
            | None => True
            end) tslots ->
  forall (cur : FlatStore.loc) (arr : list (option FlatStore.value))
         (d : Flat.depth) (i : nat),
  s0 !! cur = Some arr ->
  Forall2 (option_Forall2 (FlatStore.represents s0)) (drop i arr) tslots ->
  FlatStore.appends s0 result cur d i (Flat.flattenHelper tslots d []).
Proof.
  induction 1 as [|slot rest Hslot Hrest IH]; intros cur arr d i Hcur Hrepr.
  - apply Forall2_nil_inv_r in Hrepr.
    assert (arr !! i = None) as Hi.
    { apply lookup_ge_None. apply (f_equal length) in Hrepr.
      rewrite length_drop in Hrepr. simpl in Hrepr. lia. }
    exists 1%nat. intros fuel s acc Hfuel Hs Hacc. exists [].
    destruct fuel as [|fuel]; [lia|]. cbn [FlatStore.flattenHelper].
    rewrite (Hs cur), Hcur, Hi by (by apply elem_of_dom).
    split; [|constructor]. simpl. rewrite app_nil_r. by rewrite insert_id.
  - apply Forall2_cons_inv_r in Hrepr as (a & tl & Ha & Htl & Hdrop).
    assert (arr !! i = Some a) as Hi.
    { rewrite <- (Nat.add_0_r i), <- lookup_drop, Hdrop. done. }
    assert (drop (S i) arr = tl) as Hdrop'.
    { rewrite <- (Nat.add_1_r i), <- drop_drop, Hdrop. done. }
    rewrite <- Hdrop' in Htl.
    destruct (IH cur arr d (S i) Hcur Htl) as (f1 & Hloop).
    destruct Ha as [v t Hvt|].
    + (* a slot that is present *)
      destruct Hvt as [p|inner iarr islots Hinner Hislots].
      * (* a primitive: written to result *)
        exists (S f1). intros fuel s acc Hfuel Hs Hacc.
        destruct fuel as [|fuel]; [lia|]. cbn [FlatStore.flattenHelper].
        rewrite (Hs cur), Hcur, Hi by (by apply elem_of_dom).
        unfold FlatStore.push. rewrite Hacc.
        destruct (Hloop fuel (<[result := acc ++ [Some (FlatStore.Prim p)]]> s)
                    (acc ++ [Some (FlatStore.Prim p)]))
          as (out & Hrun & Hout);
          [lia | by apply agree_push | by rewrite lookup_insert_eq |].
        exists (FlatStore.Prim p :: out). rewrite Hrun. split.
        -- by rewrite insert_insert_eq, <- app_assoc.
        -- cbn [Flat.flattenHelper Flat.visit]. rewrite flattenHelper_acc.
           constructor; [constructor|done].
      * (* an array *)
        cbn [Flat.flattenHelper]. rewrite visit_array.
        destruct (Flat.positive_depth d) eqn:Hd.
        -- destruct (Hslot inner (Flat.next_depth d) islots eq_refl)
             as (f2 & Hinnerrun); [by econstructor|].
           exists (S (f1 + f2)). intros fuel s acc Hfuel Hs Hacc.
           destruct fuel as [|fuel]; [lia|]. cbn [FlatStore.flattenHelper].
           rewrite (Hs cur), Hcur, Hi, Hd by (by apply elem_of_dom).
           destruct (Hinnerrun fuel s acc) as (out1 & Hrun1 & Hout1);
             [lia|done|done|].
           rewrite Hrun1.
           destruct (Hloop fuel (<[result := acc ++ (Some <$> out1)]> s)
                       (acc ++ (Some <$> out1)))
             as (out2 & Hrun2 & Hout2);
             [lia | by apply agree_push | by rewrite lookup_insert_eq |].
           exists (out1 ++ out2). rewrite Hrun2. split.
           ++ by rewrite insert_insert_eq, fmap_app, <- app_assoc.
           ++ rewrite flattenHelper_acc. by apply Forall2_app.
        -- exists (S f1). intros fuel s acc Hfuel Hs Hacc.
           destruct fuel as [|fuel]; [lia|]. cbn [FlatStore.flattenHelper].
           rewrite (Hs cur), Hcur, Hi, Hd by (by apply elem_of_dom).
           unfold FlatStore.push. rewrite Hacc.
           destruct (Hloop fuel (<[result := acc ++ [Some (FlatStore.Ref inner)]]> s)
                       (acc ++ [Some (FlatStore.Ref inner)]))
             as (out & Hrun & Hout);
             [lia | by apply agree_push | by rewrite lookup_insert_eq |].
           exists (FlatStore.Ref inner :: out). rewrite Hrun. split.
           ++ by rewrite insert_insert_eq, <- app_assoc.
           ++ rewrite flattenHelper_acc. simpl.
              constructor; [by econstructor|done].
    + (* a hole *)
      exists (S f1). intros fuel s acc Hfuel Hs Hacc.
      destruct fuel as [|fuel]; [lia|]. cbn [FlatStore.flattenHelper].
      rewrite (Hs cur), Hcur, Hi by (by apply elem_of_dom).
      destruct (Hloop fuel s acc) as (out & Hrun & Hout); [lia|done|done|].
      exists out. by rewrite Hrun.
Qed.

Lemma array_appends (t : Flat.value) :
  forall l d slots, t = Flat.Array slots ->
    FlatStore.represents s0 (FlatStore.Ref l) t ->
    FlatStore.appends s0 result l d 0 (Flat.flattenHelper slots d []).
Proof.
  induction t as [p|tslots IH] using value_nested_ind;
    intros l d slots Heq Hrepr; [done|].
  injection Heq as <-. inversion Hrepr as [|l' arr slots' Harr Hslots]; subst.
  by apply (loop_appends tslots IH l arr d 0).
Qed.

End simulation.

(** On a store in which [arr] is laid out as the nested array [slots], [flat]
    returns, given enough fuel, a new array holding the values [Flat.flat]
    lists, and the store is otherwise as it was. *)
Lemma flat_store (s : FlatStore.store) (arr : FlatStore.loc)
  (slots : list (option Flat.value)) (depth_ : option Flat.depth) :
  FlatStore.represents s (FlatStore.Ref arr) (Flat.Array slots) ->
  exists f0 : nat, forall fuel : nat, (f0 <= fuel)%nat ->
    exists out : list FlatStore.value,
      FlatStore.flat fuel arr depth_ s
      = Some (fresh (dom s), <[fresh (dom s) := Some <$> out]> s)
      /\ Forall2 (FlatStore.represents s) out (Flat.flat slots depth_).
Proof.
  intros Hrepr.
  destruct (array_appends s (fresh (dom s)) (is_fresh (dom s)) _ arr
              (default (Flat.Finite 1) depth_) slots eq_refl Hrepr) as (f0 & Hrun).
  exists f0. intros fuel Hfuel.
  destruct (Hrun fuel (<[fresh (dom s) := []]> s) [] Hfuel) as (out & Hout & Hrep).
  - intros l Hl. rewrite lookup_insert_ne; [done|].
    intros <-. by apply (is_fresh (dom s)).
  - by rewrite lookup_insert_eq.
  - exists out. unfold FlatStore.flat. rewrite Hout. split; [|done].
    by rewrite insert_insert_eq.
Qed.

End flat_store_facts.

(** The store of the example lays out the array of the example. *)
Lemma example_represents :
  FlatStore.represents FlatStore.example_store (FlatStore.Ref 1%positive)
    (Flat.Array Flat.example_arr).
Proof.
  unfold Flat.example_arr, Flat.num.
  repeat match goal with
         | |- Forall2 _ _ _ => constructor
         | |- option_Forall2 _ _ _ => constructor
         | |- FlatStore.represents _ (FlatStore.Prim _) _ =>
             apply FlatStore.represents_prim
         | |- FlatStore.represents _ (FlatStore.Ref _) _ =>
             eapply FlatStore.represents_ref; [vm_compute; reflexivity|]
         end.
Qed.

(** C10 -- [flat] skips the holes of sparse arrays at every level it
    flattens.  The output is the concatenation, in slot order, of what each
    slot contributes: nothing for a hole, the value itself for anything
    that is not flattened ([undefined] included), and for an array, while
    the depth allows, the output of the same routine on that array, holes
    skipped again.  Over the store, a run of [flat] writes to its new
    [result] array only: every array that existed, the input and the
    arrays nested in it, holds afterwards what it held; and on an input
    laid out as a nested array the run ends and returns the values listed
    above.  The example of the source gives
    [[1, 2, undefined, 3, 4, 5, 6, 7, 8, 9, 10]]. *)
Theorem C10_flat_skips_holes (arr : list (option Flat.value))
  (depth_ : option Flat.depth) :
  let d := default (Flat.Finite 1) depth_ in
  Flat.flat arr depth_ = concat (map (Flat.slot_contribution d) arr)
  /\ (forall xs ys : list (option Flat.value),
        Flat.flat (xs ++ ys) depth_ = Flat.flat xs depth_ ++ Flat.flat ys depth_)
  /\ (forall xs ys : list (option Flat.value),
        Flat.flat (xs ++ None :: ys) depth_
        = Flat.flat xs depth_ ++ Flat.flat ys depth_)
  /\ (forall xs ys : list (option Flat.value),
        Flat.flat (xs ++ Some (Flat.Prim Js.VUndefined) :: ys) depth_
        = Flat.flat xs depth_ ++ [Flat.Prim Js.VUndefined] ++ Flat.flat ys depth_)
  /\ (forall (xs ys : list (option Flat.value)) (p : Js.value),
        Flat.flat (xs ++ Some (Flat.Prim p) :: ys) depth_
        = Flat.flat xs depth_ ++ [Flat.Prim p] ++ Flat.flat ys depth_)
  /\ (forall xs ys inner : list (option Flat.value),
        Flat.flat (xs ++ Some (Flat.Array inner) :: ys) depth_
        = Flat.flat xs depth_
          ++ (if Flat.positive_depth d
              then Flat.flat inner (Some (Flat.next_depth d))
              else [Flat.Array inner])
          ++ Flat.flat ys depth_)
  /\ (forall (fuel : nat) (s s' : FlatStore.store) (l result : FlatStore.loc),
        FlatStore.flat fuel l depth_ s = Some (result, s') ->
        (result ∉ dom s) /\ forall l', l' ∈ dom s -> s' !! l' = s !! l')
  /\ (forall (s : FlatStore.store) (l : FlatStore.loc),
        FlatStore.represents s (FlatStore.Ref l) (Flat.Array arr) ->
        exists f0 : nat, forall fuel : nat, (f0 <= fuel)%nat ->
          exists out : list FlatStore.value,
            FlatStore.flat fuel l depth_ s
            = Some (fresh (dom s), <[fresh (dom s) := Some <$> out]> s)
            /\ Forall2 (FlatStore.represents s) out (Flat.flat arr depth_))
  /\ Flat.flat Flat.example_arr (Some Flat.Infinity)
     = map (fun v => Flat.Prim v)
         [Js.VNumber 1; Js.VNumber 2; Js.VUndefined; Js.VNumber 3;
          Js.VNumber 4; Js.VNumber 5; Js.VNumber 6; Js.VNumber 7;
          Js.VNumber 8; Js.VNumber 9; Js.VNumber 10]
  /\ FlatStore.flat 32 1%positive (Some Flat.Infinity) FlatStore.example_store
     = Some (6%positive,
             <[6%positive :=
                 map (fun v => Some (FlatStore.Prim v))
                   [Js.VNumber 1; Js.VNumber 2; Js.VUndefined; Js.VNumber 3;
                    Js.VNumber 4; Js.VNumber 5; Js.VNumber 6; Js.VNumber 7;
                    Js.VNumber 8; Js.VNumber 9; Js.VNumber 10]]>
               FlatStore.example_store)
  /\ FlatStore.represents FlatStore.example_store (FlatStore.Ref 1%positive)
       (Flat.Array Flat.example_arr).
Proof.
  cbv zeta. split; [apply flat_contribution|].
  split; [intros; apply flat_app|].
  split; [intros; by rewrite flat_app, flat_cons|].
  split; [intros; by rewrite flat_app, flat_cons|].
  split; [intros; by rewrite flat_app, flat_cons|].
  split.
  { intros xs ys inner. rewrite flat_app, flat_cons. cbn [Flat.slot_contribution].
    rewrite contribution_array.
    destruct (Flat.positive_depth (default (Flat.Finite 1) depth_)); [|done].
    by rewrite (flat_contribution inner). }
  split; [intros fuel s s' l result; apply flat_frame|].
  split; [intros s l; apply flat_store|].
  split; [reflexivity|]. split; [vm_compute; reflexivity|].
  apply example_represents.
Qed.

Lemma C10_flat_store_witness :
  exists f0 : nat, forall fuel : nat, (f0 <= fuel)%nat ->
    exists out : list FlatStore.value,
      FlatStore.flat fuel 1%positive (Some Flat.Infinity) FlatStore.example_store
      = Some (fresh (dom FlatStore.example_store),
              <[fresh (dom FlatStore.example_store) := Some <$> out]>
                FlatStore.example_store)
      /\ Forall2 (FlatStore.represents FlatStore.example_store) out
           (Flat.flat Flat.example_arr (Some Flat.Infinity)).
Proof.
  pose proof (C10_flat_skips_holes Flat.example_arr (Some Flat.Infinity)) as Hflat.
  cbv zeta in Hflat.
  destruct Hflat as (_ & _ & _ & _ & _ & _ & _ & Hstore & _ & _ & Hrepr).
  exact (Hstore FlatStore.example_store 1%positive Hrepr).
Defined.

(** * Further properties *)

(** ** curry with placeholders: what a call does to the arguments held *)

Section merge_facts.
Context {V R : Type} `{EqDecision V}.
Variable placeholder : V.

(** The slots of a list that hold the placeholder. *)
Lemma resultArg_length (arg nextArg : list V) :
  (length (Curry.resultArg placeholder arg nextArg).1
   + length (Curry.resultArg placeholder arg nextArg).2
   + Nat.min (length (filter (fun x => x = placeholder) arg)) (length nextArg)
   = length arg + length nextArg)%nat.
Proof.
  revert nextArg. induction arg as [|item tl IH]; intros nextArg; simpl; [lia|].
  unfold Curry.fill. rewrite filter_cons. case_bool_decide as Hitem.
  - rewrite decide_True by done. destruct nextArg as [|x rest].
    + specialize (IH []).
      destruct (Curry.resultArg placeholder tl []) as [xs r]. simpl in *. lia.
    + specialize (IH rest).
      destruct (Curry.resultArg placeholder tl rest) as [xs r]. simpl in *. lia.
  - rewrite decide_False by done. specialize (IH nextArg).
    destruct (Curry.resultArg placeholder tl nextArg) as [xs r]. simpl in *. lia.
Qed.

Lemma resultArg_values (arg nextArg : list V) :
  filter (fun x => x <> placeholder)
    ((Curry.resultArg placeholder arg nextArg).1
     ++ (Curry.resultArg placeholder arg nextArg).2)
  ≡ₚ filter (fun x => x <> placeholder) arg
     ++ filter (fun x => x <> placeholder) nextArg.
Proof.
  revert nextArg. induction arg as [|item tl IH]; intros nextArg; simpl; [done|].
  unfold Curry.fill. case_bool_decide as Hitem.
  - subst item. rewrite (filter_cons_False _ placeholder tl) by (by intros ?).
    destruct nextArg as [|x rest].
    + specialize (IH []).
      destruct (Curry.resultArg placeholder tl []) as [xs r]. simpl in *.
      rewrite filter_cons_False by (by intros ?). done.
    + specialize (IH rest).
      destruct (Curry.resultArg placeholder tl rest) as [xs r]. simpl in *.
      rewrite !filter_cons. destruct (decide (x <> placeholder)); [|done].
      rewrite IH. by rewrite Permutation_middle.
  - specialize (IH nextArg).
    destruct (Curry.resultArg placeholder tl nextArg) as [xs r]. simpl in *.
    rewrite !filter_cons_True by done. simpl. by rewrite IH.
Qed.

Lemma resultArg_stable (arg nextArg : list V) (i : nat) (v : V) :
  arg !! i = Some v -> v <> placeholder ->
  ((Curry.resultArg placeholder arg nextArg).1
   ++ (Curry.resultArg placeholder arg nextArg).2) !! i = Some v.
Proof.
  revert nextArg i. induction arg as [|item tl IH]; intros nextArg i Hi Hv; [done|].
  simpl. destruct i as [|i]; simpl in Hi.
  - injection Hi as ->. rewrite fill_value by done.
    by destruct (Curry.resultArg placeholder tl nextArg).
  - destruct (Curry.fill placeholder item nextArg) as [x next1].
    specialize (IH next1 i Hi Hv).
    by destruct (Curry.resultArg placeholder tl next1).
Qed.

Lemma resultArg_filled (arg nextArg : list V) :
  (length (filter (fun x => x = placeholder) arg) <= length nextArg)%nat ->
  placeholder ∉ nextArg ->
  placeholder ∉ (Curry.resultArg placeholder arg nextArg).1
                ++ (Curry.resultArg placeholder arg nextArg).2.
Proof.
  revert nextArg. induction arg as [|item tl IH]; intros nextArg Hcount Hno; [done|].
  simpl. unfold Curry.fill. rewrite filter_cons in Hcount.
  case_bool_decide as Hitem.
  - rewrite decide_True in Hcount by done. destruct nextArg as [|x rest].
    { simpl in Hcount. lia. }
    apply not_elem_of_cons in Hno as [Hx Hrest].
    specialize (IH rest ltac:(simpl in Hcount; lia) Hrest).
    destruct (Curry.resultArg placeholder tl rest) as [xs r]. simpl in *.
    apply not_elem_of_cons. split; [congruence|done].
  - rewrite decide_False in Hcount by done.
    specialize (IH nextArg Hcount Hno).
    destruct (Curry.resultArg placeholder tl nextArg) as [xs r]. simpl in *.
    apply not_elem_of_cons. split; [congruence|done].
Qed.

Lemma call_resultArg (c : Curry.closure V R) (args : list V) :
  Curry.call placeholder c args
  = match c with
    | Curry.Curried fn | Curry.Inner fn _ =>
        Curry.curried placeholder fn
          ((Curry.resultArg placeholder (Curry.pending c) args).1
           ++ (Curry.resultArg placeholder (Curry.pending c) args).2)
    end.
Proof.
  destruct c as [fn|fn arg]; simpl; [done|].
  unfold Curry.inner. by destruct (Curry.resultArg placeholder arg args).
Qed.

(** A value held at index [i] stays there through every later call, up to
    the call of the target. *)
Lemma chain_stable (fn : Curry.target V R) (calls : list (list V)) :
  forall (arg : list V) (i : nat) (v : V) (r : R),
  arg !! i = Some v -> v <> placeholder ->
  Curry.chain placeholder (Curry.Inner fn arg) calls = Normal (Curry.Invoked r) ->
  exists args : list V, r = Curry.fn_body fn args /\ args !! i = Some v.
Proof.
  induction calls as [|g rest IH]; intros arg i v r Hi Hv Hchain; [done|].
  cbn [Curry.chain] in Hchain. rewrite call_resultArg in Hchain.
  pose proof (resultArg_stable arg g i v Hi Hv) as Hstable.
  cbn [Curry.pending] in Hchain.
  set (combined := (Curry.resultArg placeholder arg g).1
                   ++ (Curry.resultArg placeholder arg g).2) in *.
  destruct (curried_cases placeholder fn combined) as [[_ Hc]|[_ Hc]];
    rewrite Hc in Hchain.
  - destruct rest; [|done]. injection Hchain as <-. by exists combined.
  - by eapply IH.
Qed.

End merge_facts.

(** X1 -- A call loses and duplicates nothing.  For a continuation holding
    [pending] called with [newArgs], the list the engine goes on with (the
    mapped array followed by what is left of [nextArg]) has the values of
    [pending] and of [newArgs] other than the placeholder, each as many
    times as it occurs there, and its length is that of both lists less the
    number of placeholder slots filled. *)
Theorem X1_call_keeps_values {V R : Type} `{EqDecision V} (placeholder : V)
  (fn : Curry.target V R) (pending newArgs : list V) :
  let filled := (Curry.resultArg placeholder pending newArgs).1 in
  let rest := (Curry.resultArg placeholder pending newArgs).2 in
  Curry.call placeholder (Curry.Inner fn pending) newArgs
  = Curry.curried placeholder fn (filled ++ rest)
  /\ filter (fun x => x <> placeholder) (filled ++ rest)
     ≡ₚ filter (fun x => x <> placeholder) pending
        ++ filter (fun x => x <> placeholder) newArgs
  /\ (length (filled ++ rest)
      + Nat.min (length (filter (fun x => x = placeholder) pending))
          (length newArgs)
      = length pending + length newArgs)%nat.
Proof.
  cbv zeta. split; [|split].
  - apply (call_resultArg placeholder (Curry.Inner fn pending)).
  - apply resultArg_values.
  - rewrite length_app. apply resultArg_length.
Qed.

(** X2 -- Positions are stable.  A value other than the placeholder held at
    index [i], by a continuation or in the arguments of the first call,
    is at index [i] of the arguments the target is finally called with,
    whatever calls come between. *)
Theorem X2_position_stable {V R : Type} `{EqDecision V} (placeholder : V)
  (fn : Curry.target V R) (first : list V) (calls : list (list V))
  (i : nat) (v : V) (r : R) :
  first !! i = Some v ->
  v <> placeholder ->
  Curry.run placeholder fn (first :: calls) = Normal (Curry.Invoked r) ->
  (exists args : list V, r = Curry.fn_body fn args /\ args !! i = Some v)
  /\ (forall (calls' : list (list V)) (r' : R),
        Curry.chain placeholder (Curry.Inner fn first) calls'
        = Normal (Curry.Invoked r') ->
        exists args : list V, r' = Curry.fn_body fn args /\ args !! i = Some v).
Proof.
  intros Hi Hv Hrun. split.
  - unfold Curry.run, Curry.curry in Hrun. simpl in Hrun.
    destruct (curried_cases placeholder fn first) as [[_ Hc]|[_ Hc]];
      rewrite Hc in Hrun.
    + destruct calls; [|done]. injection Hrun as <-. by exists first.
    + by eapply chain_stable.
  - intros calls' r' Hchain. by eapply chain_stable.
Qed.

Lemma X2_position_witness :
  exists args : list Js.value,
    Normal (Js.VString "1_2_3") = Js.join args
    /\ args !! 2%nat = Some (Js.VNumber 3).
Proof.
  refine (proj1 (X2_position_stable Js.placeholder Js.join_target
                   [Js.placeholder; Js.placeholder; Js.VNumber 3; Js.VNumber 4]
                   [[Js.VNumber 1; Js.placeholder]; [Js.VNumber 2; Js.VNumber 5]]
                   2 (Js.VNumber 3) (Normal (Js.VString "1_2_3")) _ _ _)).
  - reflexivity.
  - done.
  - reflexivity.
Defined.

(** X3 -- Enough real values complete the application.  When a continuation
    holds at least [arity] slots and is called with placeholder-free
    arguments, at least as many as it has placeholder slots, the call
    invokes the target, with no placeholder among its arguments. *)
Theorem X3_filling_call_invokes {V R : Type} `{EqDecision V} (placeholder : V)
  (fn : Curry.target V R) (pending newArgs : list V) :
  0 <= Curry.fn_length fn <= Z.of_nat (length pending) ->
  (length (filter (fun x => x = placeholder) pending) <= length newArgs)%nat ->
  placeholder ∉ newArgs ->
  exists args : list V,
    Curry.call placeholder (Curry.Inner fn pending) newArgs
    = Curry.Invoked (Curry.fn_body fn args)
    /\ (placeholder ∉ args)
    /\ (forall (i : nat) (v : V),
          pending !! i = Some v -> v <> placeholder -> args !! i = Some v).
Proof.
  intros Hn Hcount Hno.
  exists ((Curry.resultArg placeholder pending newArgs).1
          ++ (Curry.resultArg placeholder pending newArgs).2).
  pose proof (resultArg_filled placeholder pending newArgs Hcount Hno) as Hfilled.
  pose proof (resultArg_length placeholder pending newArgs) as Hlen.
  split; [|split; [done|]].
  - rewrite (call_resultArg placeholder (Curry.Inner fn pending)).
    cbn [Curry.pending].
    set (combined := (Curry.resultArg placeholder pending newArgs).1
                     ++ (Curry.resultArg placeholder pending newArgs).2) in *.
    assert (Curry.isValid placeholder fn combined = true) as Hvalid.
    { apply isValid_ready; [lia|]. split.
      - unfold combined. rewrite length_app. lia.
      - intros i _ Hlook. apply Hfilled. by eapply list_elem_of_lookup_2. }
    unfold Curry.curried. by rewrite Hvalid.
  - intros i v. apply resultArg_stable.
Qed.

Lemma X3_filling_witness :
  exists args : list Js.value,
    Curry.call Js.placeholder
      (Curry.Inner Js.join_target
         [Js.placeholder; Js.VNumber 2; Js.placeholder])
      [Js.VNumber 1; Js.VNumber 3]
    = Curry.Invoked (Js.join args)
    /\ (Js.placeholder ∉ args).
Proof.
  destruct (X3_filling_call_invokes Js.placeholder Js.join_target
              [Js.placeholder; Js.VNumber 2; Js.placeholder]
              [Js.VNumber 1; Js.VNumber 3])
    as (args & Hcall & Hno & _).
  - simpl. lia.
  - vm_compute. lia.
  - intros Hin. repeat (apply elem_of_cons in Hin as [Hin|Hin]; [done|]).
    by apply elem_of_nil in Hin.
  - exists args. split; [exact Hcall|exact Hno].
Defined.

(** ** The two curry implementations on arguments without placeholder *)

Section agreement.
Context {V R : Type} `{EqDecision V}.
Variable placeholder : V.

Lemma slice0_subseteq (n : Z) (arg : list V) (x : V) :
  x ∈ Curry.slice0 n arg -> x ∈ arg.
Proof.
  unfold Curry.slice0. intros Hin.
  apply elem_of_take_lookup in Hin as (i & _ & Hi).
  by eapply list_elem_of_lookup_2.
Qed.

Lemma isValid_no_placeholder (fn : Curry.target V R) (arg : list V) :
  placeholder ∉ arg ->
  Curry.isValid placeholder fn arg
  = (Curry.fn_length fn <=? Z.of_nat (length arg)).
Proof.
  intros Hno. unfold Curry.isValid.
  assert (Curry.includes placeholder (Curry.slice0 (Curry.fn_length fn) arg) = false)
    as ->; [|by rewrite andb_true_r].
  apply not_true_is_false. intros Hinc. apply includes_elem_of in Hinc.
  by apply Hno, (slice0_subseteq (Curry.fn_length fn)).
Qed.

Lemma call_agrees (c : Curry.closure V R) (args : list V) :
  placeholder ∉ Curry.pending c -> placeholder ∉ args ->
  CurryLink.simple_outcome (Curry.call placeholder c args)
  = SimpleCurry.call (CurryLink.simple_closure c) args
  /\ match Curry.call placeholder c args with
     | Curry.Returned c' => placeholder ∉ Curry.pending c'
     | Curry.Invoked _ => True
     end.
Proof.
  intros Hp Ha.
  assert (Curry.call placeholder c args
          = match c with
            | Curry.Curried fn | Curry.Inner fn _ =>
                Curry.curried placeholder fn (Curry.pending c ++ args)
            end) as Hcall.
  { destruct c as [fn|fn arg]; simpl; [done|]. by apply inner_no_placeholder. }
  rewrite Hcall.
  assert (placeholder ∉ Curry.pending c ++ args) as Hno
    by (by apply not_elem_of_app).
  destruct c as [fn|fn arg]; simpl in *;
    unfold Curry.curried, SimpleCurry.arrow, SimpleCurry.curried;
    rewrite isValid_no_placeholder by done; simpl;
    match goal with
    | |- context [?n <=? ?m] => destruct (n <=? m)
    end; done.
Qed.

Lemma chain_agrees (calls : list (list V)) :
  forall c : Curry.closure V R,
  placeholder ∉ Curry.pending c -> placeholder ∉ concat calls ->
  CurryLink.simple_completion (Curry.chain placeholder c calls)
  = SimpleCurry.chain (CurryLink.simple_closure c) calls.
Proof.
  induction calls as [|g rest IH]; intros c Hp Hno; [done|].
  simpl in Hno. apply not_elem_of_app in Hno as [Hg Hrest].
  destruct (call_agrees c g Hp Hg) as [Hcall Hpending].
  cbn [Curry.chain SimpleCurry.chain]. rewrite <- Hcall.
  destruct (Curry.call placeholder c g) as [r|c']; simpl.
  - by destruct rest.
  - by apply IH.
Qed.

(** Arguments beyond the arity, and calls with no argument. *)
Lemma simple_chain_over (fn : SimpleCurry.target V R) (before : list (list V))
  (g : list V) :
  forall prefix : list V,
  Z.of_nat (length (prefix ++ concat before)) < SimpleCurry.fn_length fn ->
  SimpleCurry.fn_length fn <= Z.of_nat (length (prefix ++ concat before ++ g)) ->
  SimpleCurry.chain (SimpleCurry.Arrow fn prefix) (before ++ [g])
  = Normal (SimpleCurry.Invoked
              (SimpleCurry.fn_body fn (prefix ++ concat before ++ g))).
Proof.
  induction before as [|b rest IH]; intros prefix Hlt Hge.
  - simpl in *. unfold SimpleCurry.arrow, SimpleCurry.curried.
    destruct (Z.leb_spec (SimpleCurry.fn_length fn)
                (Z.of_nat (length (prefix ++ g)))); [done|lia].
  - cbn [app SimpleCurry.chain SimpleCurry.call concat] in *.
    unfold SimpleCurry.arrow, SimpleCurry.curried.
    destruct (Z.leb_spec (SimpleCurry.fn_length fn)
                (Z.of_nat (length (prefix ++ b)))) as [Hle|_].
    { rewrite !length_app in *. lia. }
    rewrite (IH (prefix ++ b)).
    + by rewrite <- !app_assoc.
    + by rewrite <- !app_assoc.
    + rewrite <- !app_assoc in *. done.
Qed.

End agreement.

(** X4 -- Without placeholders, the curry with placeholders is the plain
    curry.  For every target function (whatever its [length]) and every
    chain of calls none of whose arguments is the placeholder, the two
    implementations end the same way: the same call invokes the target,
    with the same arguments, or both return a continuation holding the
    same arguments. *)
Theorem X4_agrees_with_plain_curry {V R : Type} `{EqDecision V} (placeholder : V)
  (fn : Curry.target V R) (calls : list (list V)) :
  placeholder ∉ concat calls ->
  CurryLink.simple_completion (Curry.run placeholder fn calls)
  = SimpleCurry.run (CurryLink.simple_target fn) calls.
Proof.
  intros Hno. unfold Curry.run, SimpleCurry.run, Curry.curry, SimpleCurry.curry.
  simpl. apply (chain_agrees placeholder calls (Curry.Curried fn)); [|done].
  apply not_elem_of_nil.
Qed.

Lemma X4_agrees_witness :
  CurryLink.simple_completion
    (Curry.run Js.placeholder Js.sum_target
       [[Js.VNumber 1]; []; [Js.VNumber 2; Js.VNumber 3; Js.VNumber 4]])
  = SimpleCurry.run (CurryLink.simple_target Js.sum_target)
      [[Js.VNumber 1]; []; [Js.VNumber 2; Js.VNumber 3; Js.VNumber 4]].
Proof.
  apply (X4_agrees_with_plain_curry Js.placeholder Js.sum_target).
  vm_compute. intros Hin.
  repeat (apply elem_of_cons in Hin as [Hin|Hin]; [done|]).
  by apply elem_of_nil in Hin.
Defined.

(** X5 -- Calls with no argument and arguments beyond the arity.  In a chain
    of calls of the plain curry, groups may be empty and the last one may
    bring more than is missing: the target is invoked by the first call at
    which the arguments gathered reach the arity, with all of them, in
    order.  The curry with placeholders does the same when no argument is
    the placeholder. *)
Theorem X5_empty_calls_and_extra_arguments {V R : Type} `{EqDecision V}
  (placeholder : V) (n : Z) (f : list V -> R) (before : list (list V))
  (g : list V) :
  Z.of_nat (length (concat before)) < n ->
  n <= Z.of_nat (length (concat before ++ g)) ->
  SimpleCurry.run (SimpleCurry.Target n f) (before ++ [g])
  = Normal (SimpleCurry.Invoked (f (concat before ++ g)))
  /\ (placeholder ∉ concat before ++ g ->
      Curry.run placeholder (Curry.Target n f) (before ++ [g])
      = Normal (Curry.Invoked (f (concat before ++ g)))).
Proof.
  intros Hlt Hge.
  assert (SimpleCurry.run (SimpleCurry.Target n f) (before ++ [g])
          = Normal (SimpleCurry.Invoked (f (concat before ++ g)))) as Hsimple.
  { unfold SimpleCurry.run, SimpleCurry.curry. simpl.
    pose proof (simple_chain_over (SimpleCurry.Target n f) before g [] Hlt Hge)
      as Hover.
    destruct before as [|b rest]; exact Hover. }
  split; [done|]. intros Hno.
  assert (CurryLink.simple_completion
            (Curry.run placeholder (Curry.Target n f) (before ++ [g]))
          = Normal (SimpleCurry.Invoked (f (concat before ++ g)))) as Hagree.
  { etrans; [|exact Hsimple].
    apply (chain_agrees placeholder (before ++ [g])
             (Curry.Curried (Curry.Target n f))); [apply not_elem_of_nil|].
    by rewrite concat_app; simpl; rewrite app_nil_r. }
  destruct (Curry.run placeholder (Curry.Target n f) (before ++ [g]))
    as [[r|c]|e]; simpl in Hagree; [|done|done].
  by injection Hagree as ->.
Qed.

Lemma X5_empty_calls_witness :
  SimpleCurry.run Js.sum_simple_target
    [[Js.VNumber 1]; []; [Js.VNumber 2; Js.VNumber 3; Js.VNumber 4]]
  = Normal (SimpleCurry.Invoked
              (Js.sum [Js.VNumber 1; Js.VNumber 2; Js.VNumber 3; Js.VNumber 4])).
Proof.
  refine (proj1 (X5_empty_calls_and_extra_arguments Js.placeholder 3 Js.sum
                   [[Js.VNumber 1]; []]
                   [Js.VNumber 2; Js.VNumber 3; Js.VNumber 4] _ _)).
  - simpl. lia.
  - simpl. lia.
Defined.

(** ** curriedJoin *)

Section chain_elements.
Context {V R : Type} `{EqDecision V}.
Variable placeholder : V.

Lemma resultArg_elem (arg nextArg : list V) (v : V) :
  v ∈ (Curry.resultArg placeholder arg nextArg).1
      ++ (Curry.resultArg placeholder arg nextArg).2 ->
  v ∈ arg \/ v ∈ nextArg.
Proof.
  revert nextArg. induction arg as [|item tl IH]; intros nextArg; simpl; [auto|].
  unfold Curry.fill. case_bool_decide as Hitem.
  - destruct nextArg as [|x rest].
    + specialize (IH []).
      destruct (Curry.resultArg placeholder tl []) as [xs r]. simpl in *.
      intros Hin. apply elem_of_cons in Hin as [->|Hin];
        [left; apply list_elem_of_here|].
      destruct (IH Hin) as [?|?]; [left|by right]. by apply list_elem_of_further.
    + specialize (IH rest).
      destruct (Curry.resultArg placeholder tl rest) as [xs r]. simpl in *.
      intros Hin. apply elem_of_cons in Hin as [->|Hin];
        [right; apply list_elem_of_here|].
      destruct (IH Hin) as [?|?]; [left|right]; by apply list_elem_of_further.
  - specialize (IH nextArg).
    destruct (Curry.resultArg placeholder tl nextArg) as [xs r]. simpl in *.
    intros Hin. apply elem_of_cons in Hin as [->|Hin];
      [left; apply list_elem_of_here|].
    destruct (IH Hin) as [?|?]; [left|by right]. by apply list_elem_of_further.
Qed.

(** The target is called on a list that is ready and is made of values the
    calls brought. *)
Lemma chain_elements (P : V -> Prop) (calls : list (list V)) :
  forall (c : Curry.closure V R) (r : R),
  Forall P (Curry.pending c) ->
  Forall (Forall P) calls ->
  Curry.chain placeholder c calls = Normal (Curry.Invoked r) ->
  exists args : list V,
    r = Curry.fn_body (match c with
                       | Curry.Curried fn | Curry.Inner fn _ => fn
                       end) args
    /\ Curry.isValid placeholder
         (match c with Curry.Curried fn | Curry.Inner fn _ => fn end) args = true
    /\ Forall P args.
Proof.
  induction calls as [|g rest IH]; intros c r Hp Hcalls Hchain; [done|].
  apply Forall_cons in Hcalls as [Hg Hrest].
  cbn [Curry.chain] in Hchain. rewrite call_resultArg in Hchain.
  set (combined := (Curry.resultArg placeholder (Curry.pending c) g).1
                   ++ (Curry.resultArg placeholder (Curry.pending c) g).2) in *.
  assert (Forall P combined) as Hcombined.
  { apply Forall_forall. intros v Hv.
    destruct (resultArg_elem _ _ _ Hv) as [Hin|Hin].
    - by eapply (proj1 (Forall_forall P _) Hp).
    - by eapply (proj1 (Forall_forall P _) Hg). }
  destruct c as [fn|fn arg];
    destruct (curried_cases placeholder fn combined) as [[Hv Hc]|[Hv Hc]];
    rewrite Hc in Hchain.
  - destruct rest; [|done]. injection Hchain as <-. by exists combined.
  - by apply (IH (Curry.Inner fn combined) r).
  - destruct rest; [|done]. injection Hchain as <-. by exists combined.
  - by apply (IH (Curry.Inner fn combined) r).
Qed.

End chain_elements.

Lemma join_returns (args : list Js.value) :
  Curry.isValid Js.placeholder Js.join_target args = true ->
  Forall (fun v => v = Js.placeholder \/ forall id, v <> Js.VSymbol id) args ->
  exists s : string, Js.join args = Normal (Js.VString s).
Proof.
  intros Hvalid Hargs.
  apply (isValid_ready Js.placeholder Js.join_target args) in Hvalid as [Hlen Hno];
    [|done].
  simpl in Hlen, Hno.
  destruct args as [|a [|b [|c rest]]]; simpl in Hlen; try lia.
  assert (forall (i : nat) v, (i < 3)%nat -> (a :: b :: c :: rest) !! i = Some v ->
            exists s, Js.ToString v = Normal s) as Hstr.
  { intros i v Hi Hv.
    assert (v <> Js.placeholder) as Hne.
    { intros ->. apply (Hno i); [lia|done]. }
    apply list_elem_of_lookup_2 in Hv.
    destruct (proj1 (Forall_forall _ _) Hargs v Hv) as [?|Hsym]; [done|].
    destruct v; simpl; eauto. by destruct (Hsym id). }
  destruct (Hstr 0%nat a ltac:(lia) eq_refl) as [sa Ha].
  destruct (Hstr 1%nat b ltac:(lia) eq_refl) as [sb Hb].
  destruct (Hstr 2%nat c ltac:(lia) eq_refl) as [sc Hc].
  unfold Js.join, Js.param. simpl. rewrite Ha, Hb, Hc. simpl. eauto.
Qed.



(** ** flat: depth *)

Section flat_depth_facts.

Lemma nesting_array (slots : list (option Flat.value)) :
  FlatNotions.nesting (Flat.Array slots) = S (FlatNotions.deepest slots).
Proof.
  reflexivity.
Qed.

Lemma flat_dense_app (xs ys : list Flat.value) (depth_ : option Flat.depth) :
  Flat.flat (FlatNotions.dense (xs ++ ys)) depth_
  = Flat.flat (FlatNotions.dense xs) depth_
    ++ Flat.flat (FlatNotions.dense ys) depth_.
Proof. unfold FlatNotions.dense. by rewrite map_app, flat_app. Qed.

Lemma flat_dense_concat {A} (g : A -> list Flat.value) (l : list A)
  (depth_ : option Flat.depth) :
  Flat.flat (FlatNotions.dense (concat (map g l))) depth_
  = concat (map (fun a => Flat.flat (FlatNotions.dense (g a)) depth_) l).
Proof.
  induction l as [|a rest IH]; [done|].
  cbn [map concat]. by rewrite flat_dense_app, IH.
Qed.

Lemma flat_dense_singleton (v : Flat.value) (d : Flat.depth) :
  Flat.flat (FlatNotions.dense [v]) (Some d) = Flat.contribution d v.
Proof. rewrite flat_contribution. simpl. by rewrite app_nil_r. Qed.

(** Flattening [m] levels and then [n] more. *)
Lemma contribution_add (v : Flat.value) :
  forall m n : Z, 0 <= m -> 0 <= n ->
  Flat.flat (FlatNotions.dense (Flat.contribution (Flat.Finite m) v))
    (Some (Flat.Finite n))
  = Flat.contribution (Flat.Finite (m + n)) v.
Proof.
  induction v as [p|slots IH] using value_nested_ind; intros m n Hm Hn.
  - reflexivity.
  - rewrite !contribution_array. cbn [Flat.positive_depth Flat.next_depth].
    destruct (Z.ltb_spec 0 m) as [Hpos|Hzero].
    + destruct (Z.ltb_spec 0 (m + n)); [|lia].
      rewrite flat_dense_concat. f_equal.
      apply map_ext_Forall. eapply Forall_impl; [exact IH|].
      intros [item|] Hitem; simpl; [|done].
      rewrite Hitem by lia. f_equal. f_equal. lia.
    + assert (m = 0) as -> by lia. rewrite flat_dense_singleton.
      by rewrite contribution_array.
Qed.

(** With [Infinity] only primitives are left. *)
Lemma contribution_infinity_prim (v : Flat.value) :
  Forall (fun x => FlatNotions.is_prim x = true)
    (Flat.contribution Flat.Infinity v).
Proof.
  induction v as [p|slots IH] using value_nested_ind.
  - by repeat constructor.
  - rewrite contribution_array. cbn [Flat.positive_depth Flat.next_depth].
    apply Forall_concat, Forall_map. eapply Forall_impl; [exact IH|].
    intros [item|] Hitem; simpl; [done|constructor].
Qed.

Lemma flat_dense_prims (l : list Flat.value) (depth_ : option Flat.depth) :
  Forall (fun x => FlatNotions.is_prim x = true) l ->
  Flat.flat (FlatNotions.dense l) depth_ = l.
Proof.
  induction 1 as [|x rest Hx Hrest IH]; [done|].
  change (Flat.flat (FlatNotions.dense ([x] ++ rest)) depth_ = x :: rest).
  rewrite flat_dense_app, IH. destruct x; [|done].
  by rewrite flat_contribution.
Qed.

(** A depth that reaches the deepest array does what [Infinity] does. *)
Lemma contribution_saturated (v : Flat.value) :
  forall z : Z, Z.of_nat (FlatNotions.nesting v) <= z ->
  Flat.contribution (Flat.Finite z) v = Flat.contribution Flat.Infinity v.
Proof.
  induction v as [p|slots IH] using value_nested_ind; intros z Hz; [done|].
  rewrite nesting_array in Hz. rewrite !contribution_array.
  cbn [Flat.positive_depth Flat.next_depth].
  destruct (Z.ltb_spec 0 z); [|lia]. f_equal.
  revert Hz. induction IH as [|[item|] rest Hitem Hrest IHrest]; intros Hz;
    simpl in *; [done| |].
  - rewrite Hitem by lia. f_equal. apply IHrest. lia.
  - f_equal. apply IHrest. lia.
Qed.

Lemma below_depth_present (arr : list (option Flat.value)) (z : Z) :
  z <= 0 ->
  concat (map (Flat.slot_contribution (Flat.Finite z)) arr)
  = FlatNotions.present arr.
Proof.
  intros Hz. induction arr as [|[item|] rest IH]; simpl; [done| |done].
  unfold FlatNotions.present in *. simpl. rewrite IH.
  destruct item as [p|slots]; [done|]. rewrite contribution_array. simpl.
  destruct (Z.ltb_spec 0 z); [lia|done].
Qed.

End flat_depth_facts.

(** X6 -- A depth of 0 or less flattens nothing.  [flat(arr, z)] for
    [z <= 0] returns the elements of [arr] that are present, in order,
    nested arrays kept as they are: only the holes of [arr] itself go. *)
Theorem X6_flat_depth_zero (arr : list (option Flat.value)) (z : Z) :
  z <= 0 ->
  Flat.flat arr (Some (Flat.Finite z)) = FlatNotions.present arr
  /\ length (Flat.flat arr (Some (Flat.Finite z)))
     = length (filter (fun slot => is_Some slot) arr).
Proof.
  intros Hz. rewrite flat_contribution. simpl.
  rewrite below_depth_present by done. split; [done|].
  unfold FlatNotions.present.
  induction arr as [|[item|] rest IH]; [done| |].
  - rewrite filter_cons_True by (by eexists).
    change (S (length (omap id rest))
            = S (length (filter (fun slot => is_Some slot) rest))).
    by rewrite IH.
  - rewrite filter_cons_False by (by intros [? ?]). exact IH.
Qed.

Lemma X6_flat_depth_zero_witness :
  Flat.flat Flat.example_arr (Some (Flat.Finite (-1)))
  = FlatNotions.present Flat.example_arr.
Proof.
  refine (proj1 (X6_flat_depth_zero Flat.example_arr (-1) _)). lia.
Defined.



(** X8 -- [Infinity] flattens completely.  No element of
    [flat(arr, Infinity)] is an array, and flattening the result again, to
    any depth, returns it unchanged. *)
Theorem X8_flat_infinity_complete (arr : list (option Flat.value))
  (depth_ : option Flat.depth) :
  Forall (fun x => FlatNotions.is_prim x = true)
    (Flat.flat arr (Some Flat.Infinity))
  /\ Flat.flat (FlatNotions.dense (Flat.flat arr (Some Flat.Infinity))) depth_
     = Flat.flat arr (Some Flat.Infinity).
Proof.
  assert (Forall (fun x => FlatNotions.is_prim x = true)
            (Flat.flat arr (Some Flat.Infinity))) as Hprim.
  { rewrite flat_contribution. apply Forall_concat, Forall_map, Forall_forall.
    intros [item|] _; simpl; [apply contribution_infinity_prim|constructor]. }
  split; [done|]. by apply flat_dense_prims.
Qed.

(** X9 -- A depth that reaches the deepest nested array does what
    [Infinity] does: for [z] at least the nesting of the elements of
    [arr], [flat(arr, z)] is [flat(arr, Infinity)]. *)
Theorem X9_flat_depth_saturates (arr : list (option Flat.value)) (z : Z) :
  Z.of_nat (FlatNotions.deepest arr) <= z ->
  Flat.flat arr (Some (Flat.Finite z)) = Flat.flat arr (Some Flat.Infinity).
Proof.
  intros Hz. rewrite !flat_contribution. cbn [default from_option id]. f_equal.
  induction arr as [|[item|] rest IH]; simpl in *; [done| |].
  - rewrite contribution_saturated by lia. f_equal. apply IH. lia.
  - f_equal. by apply IH.
Qed.

Lemma X9_flat_depth_saturates_witness :
  Flat.flat Flat.example_arr (Some (Flat.Finite 4))
  = Flat.flat Flat.example_arr (Some Flat.Infinity).
Proof. apply X9_flat_depth_saturates. vm_compute. discriminate. Defined.

(** ** flat over the store: when a run ends *)

Section flat_termination.
Variable s0 : FlatStore.store.
Variable result : FlatStore.loc.
Hypothesis result_fresh : result ∉ dom s0.
Hypothesis s0_closed : FlatNotions.closed s0.

Lemma agree_result (s : FlatStore.store) (vs : list (option FlatStore.value)) :
  (forall l, l ∈ dom s0 -> s !! l = s0 !! l) ->
  forall l, l ∈ dom s0 -> <[result := vs]> s !! l = s0 !! l.
Proof.
  intros Hs l Hl. rewrite lookup_insert_ne; [by apply Hs|].
  intros <-. by apply result_fresh.
Qed.

(** The loop ends when each call it makes on a nested array does. *)
Lemma loop_finishes (d : Flat.depth) :
  (Flat.positive_depth d = true ->
   forall inner, inner ∈ dom s0 ->
     FlatNotions.finishes s0 result inner (Flat.next_depth d) 0) ->
  forall (cur : FlatStore.loc) (arr : list (option FlatStore.value)),
  s0 !! cur = Some arr ->
  forall k i : nat, (length arr <= i + k)%nat ->
  FlatNotions.finishes s0 result cur d i.
Proof.
  intros Hinner cur arr Hcur.
  assert (cur ∈ dom s0) as Hdom by (by apply elem_of_dom).
  induction k as [|k IH]; intros i Hlen.
  - exists 1%nat. intros fuel s Hfuel Hs Hres.
    destruct fuel as [|fuel]; [lia|]. cbn [FlatStore.flattenHelper].
    rewrite (Hs cur Hdom), Hcur.
    rewrite (proj2 (lookup_ge_None arr i)) by lia. by exists s.
  - destruct (IH (S i) ltac:(lia)) as (f1 & Hrest).
    destruct (arr !! i) as [[[p|inner]|]|] eqn:Hi.
    + exists (S f1). intros fuel s Hfuel Hs [acc Hacc].
      destruct fuel as [|fuel]; [lia|]. cbn [FlatStore.flattenHelper].
      rewrite (Hs cur Hdom), Hcur, Hi. unfold FlatStore.push. rewrite Hacc.
      apply Hrest; [lia | by apply agree_result |].
      rewrite lookup_insert_eq. by eexists.
    + destruct (Flat.positive_depth d) eqn:Hd.
      * assert (inner ∈ dom s0) as Hin by (by eapply s0_closed).
        destruct (Hinner eq_refl inner Hin) as (f2 & Hcall).
        exists (S (f1 + f2)). intros fuel s Hfuel Hs Hres.
        destruct fuel as [|fuel]; [lia|]. cbn [FlatStore.flattenHelper].
        rewrite (Hs cur Hdom), Hcur, Hi, Hd.
        destruct (Hcall fuel s ltac:(lia) Hs Hres) as (s1 & -> & Hs1 & Hres1).
        apply Hrest; [lia|done|done].
      * exists (S f1). intros fuel s Hfuel Hs [acc Hacc].
        destruct fuel as [|fuel]; [lia|]. cbn [FlatStore.flattenHelper].
        rewrite (Hs cur Hdom), Hcur, Hi, Hd. unfold FlatStore.push. rewrite Hacc.
        apply Hrest; [lia | by apply agree_result |].
        rewrite lookup_insert_eq. by eexists.
    + exists (S f1). intros fuel s Hfuel Hs Hres.
      destruct fuel as [|fuel]; [lia|]. cbn [FlatStore.flattenHelper].
      rewrite (Hs cur Hdom), Hcur, Hi. apply Hrest; [lia|done|done].
    + exists 1%nat. intros fuel s Hfuel Hs Hres.
      destruct fuel as [|fuel]; [lia|]. cbn [FlatStore.flattenHelper].
      rewrite (Hs cur Hdom), Hcur, Hi. by exists s.
Qed.

(** With a finite depth every call ends: the depth bounds the calls. *)
Lemma finite_depth_finishes (n : nat) :
  forall (z : Z) (cur : FlatStore.loc),
  z <= Z.of_nat n -> cur ∈ dom s0 ->
  FlatNotions.finishes s0 result cur (Flat.Finite z) 0.
Proof.
  induction n as [|n IH]; intros z cur Hz Hcur;
    apply elem_of_dom in Hcur as [arr Harr];
    apply (loop_finishes (Flat.Finite z)) with arr (length arr);
    try done; try lia; simpl; intros Hpos inner Hin;
    apply Z.ltb_lt in Hpos.
  - lia.
  - apply IH; [lia|done].
Qed.

End flat_termination.

Lemma self_reference_runs_on (fuel : nat) :
  forall (result l : FlatStore.loc) (s : FlatStore.store)
         (arr : list (option FlatStore.value)),
  s !! l = Some arr ->
  arr !! 0%nat = Some (Some (FlatStore.Ref l)) ->
  FlatStore.flattenHelper fuel result l Flat.Infinity 0 s = None.
Proof.
  induction fuel as [|fuel IH]; intros result l s arr Hl H0; [done|].
  cbn [FlatStore.flattenHelper]. rewrite Hl, H0. simpl.
  by rewrite (IH result l s arr Hl H0).
Qed.



(** ** throttle *)

Section throttle_facts.
Context {T V : Type}.
Variable func : T -> list V -> completion unit.
Variable wait : Z.

Lemma spaced_snoc (log : list (Throttle.invocation T V))
  (j : Throttle.invocation T V) :
  ThrottleNotions.spaced func wait log ->
  (forall i, last log = Some i -> Throttle.returned func i ->
             Throttle.inv_time i + Z.max 0 wait <= Throttle.inv_time j) ->
  ThrottleNotions.spaced func wait (log ++ [j]).
Proof.
  intros Hlog Hlast l1 l2 i j' Heq Hret.
  destruct l2 as [|x l2 _] using rev_ind.
  - change (l1 ++ [i; j']) with (l1 ++ [i] ++ [j']) in Heq.
    rewrite app_assoc in Heq. apply app_inj_tail in Heq as [-> ->].
    apply Hlast; [|done]. by rewrite last_snoc.
  - change (l1 ++ i :: j' :: l2 ++ [x]) with (l1 ++ (i :: j' :: l2) ++ [x]) in Heq.
    rewrite app_assoc in Heq. apply app_inj_tail in Heq as [-> _].
    by eapply Hlog.
Qed.

Lemma returned_throw (i : Throttle.invocation T V) (e : error) :
  func (Throttle.inv_this i) (Throttle.inv_args i) = Throw e ->
  ~ Throttle.returned func i.
Proof. intros Hthrow [u Hu]. congruence. Qed.

Lemma Forall_time_mono (log : list (Throttle.invocation T V)) (clock now : Z) :
  clock <= now ->
  Forall (fun i => Throttle.inv_time i <= clock) log ->
  Forall (fun i => Throttle.inv_time i <= now) log.
Proof.
  intros Hle Hall. eapply Forall_impl; [exact Hall|].
  intros i Hi. simpl in *. lia.
Qed.

(** One event keeps the invariant and the spacing. *)
Lemma step_invariant (clock now : Z) (e : Throttle.event T V)
  (s s1 : Throttle.state T V) (log log1 : list (Throttle.invocation T V)) :
  ThrottleNotions.invariant func wait clock s log ->
  ThrottleNotions.spaced func wait log ->
  clock <= now ->
  Throttle.step func wait now e s = Some (s1, log1) ->
  ThrottleNotions.invariant func wait now s1 (log ++ log1)
  /\ ThrottleNotions.spaced func wait (log ++ log1).
Proof.
  intros [Htimes Hstate] Hspaced Hclock Hstep.
  pose proof (Forall_time_mono log clock now Hclock Htimes) as Hnow.
  destruct s as [w la tms]. destruct e as [this arg|k]; simpl in Hstep.
  - (* a call of the throttled function *)
    unfold Throttle.throttled in Hstep. simpl in *. destruct w; simpl in *.
    + injection Hstep as <- <-. rewrite app_nil_r. by repeat split.
    + destruct Hstate as [-> Hidle].
      destruct (func this arg) as [u|err] eqn:Hfunc; simpl in Hstep;
        injection Hstep as <- <-.
      * split; [split|].
        -- apply Forall_app. split; [done|]. repeat constructor. simpl. lia.
        -- simpl. eexists. rewrite last_snoc. split; [done|].
           split; [by exists u|done].
        -- apply spaced_snoc; [done|]. intros i Hi Hret. simpl.
           specialize (Hidle i Hi Hret). lia.
      * split; [split|].
        -- apply Forall_app. split; [done|]. repeat constructor. simpl. lia.
        -- simpl. split; [done|]. intros i Hi Hret.
           rewrite last_snoc in Hi. injection Hi as <-.
           by apply (returned_throw _ err) in Hret.
        -- apply spaced_snoc; [done|]. intros i Hi Hret. simpl.
           specialize (Hidle i Hi Hret). lia.
  - (* a timer fires *)
    simpl in *. destruct (tms !! k) as [tm|] eqn:Hk; [|done].
    destruct (Z.leb_spec (Throttle.deadline tm) now) as [Hdue|]; [|done].
    destruct w; [|by destruct Hstate as [-> _]].
    destruct Hstate as (i & Hlast & Hret & ->).
    destruct k as [|k]; [|done]. injection Hk as <-. simpl in *.
    unfold Throttle.callback in Hstep. simpl in Hstep.
    destruct la as [arg|].
    + destruct (func (Throttle.inv_this i) arg) as [u|err] eqn:Hfunc;
        simpl in Hstep; injection Hstep as <- <-.
      * split; [split|].
        -- apply Forall_app. split; [done|]. repeat constructor. simpl. lia.
        -- simpl. eexists. rewrite last_snoc. split; [done|].
           split; [by exists u|done].
        -- apply spaced_snoc; [done|]. intros i' Hi' _. simpl.
           rewrite Hlast in Hi'. injection Hi' as <-. lia.
      * split; [split|].
        -- apply Forall_app. split; [done|]. repeat constructor. simpl. lia.
        -- simpl. split; [done|]. intros i' Hi' Hret'.
           rewrite last_snoc in Hi'. injection Hi' as <-.
           by apply (returned_throw _ err) in Hret'.
        -- apply spaced_snoc; [done|]. intros i' Hi' _. simpl.
           rewrite Hlast in Hi'. injection Hi' as <-. lia.
    + injection Hstep as <- <-. rewrite app_nil_r. split; [split|done]; [done|].
      simpl. split; [done|]. intros i' Hi' _.
      rewrite Hlast in Hi'. injection Hi' as <-. lia.
Qed.

Lemma run_invariant (events : list (Z * Throttle.event T V)) :
  forall (clock : Z) (s s' : Throttle.state T V)
         (log0 log : list (Throttle.invocation T V)),
  ThrottleNotions.invariant func wait clock s log0 ->
  ThrottleNotions.spaced func wait log0 ->
  Throttle.run func wait clock s events = Some (s', log) ->
  exists clock' : Z,
    clock <= clock'
    /\ ThrottleNotions.invariant func wait clock' s' (log0 ++ log)
    /\ ThrottleNotions.spaced func wait (log0 ++ log).
Proof.
  induction events as [|[now e] rest IH]; intros clock s s' log0 log Hinv Hsp Hrun.
  - injection Hrun as <- <-. exists clock. rewrite app_nil_r. split; [lia|done].
  - cbn [Throttle.run] in Hrun.
    destruct (Z.leb_spec clock now) as [Hclock|]; [|done].
    destruct (Throttle.step func wait now e s) as [[s1 log1]|] eqn:Hstep; [|done].
    destruct (Throttle.run func wait now s1 rest) as [[s2 log2]|] eqn:Hrest;
      [|done].
    injection Hrun as <- <-.
    destruct (step_invariant clock now e s s1 log0 log1 Hinv Hsp Hclock Hstep)
      as [Hinv1 Hsp1].
    destruct (IH now s1 s2 (log0 ++ log1) log2 Hinv1 Hsp1 Hrest)
      as (clock' & Hle & Hinv2 & Hsp2).
    exists clock'. rewrite app_assoc. split; [lia|done].
Qed.

Lemma initial_invariant (clock : Z) :
  ThrottleNotions.invariant func wait clock (Throttle.initial (T := T) (V := V)) []
  /\ ThrottleNotions.spaced func wait [].
Proof.
  split; [split; [constructor|]|].
  - simpl. split; [done|]. intros i Hi. done.
  - intros l1 l2 i j Heq. by destruct l1.
Qed.

End throttle_facts.



Section throttle_window.
Context {T V : Type}.
Variable func : T -> list V -> completion unit.
Variable wait : Z.

Lemma stored_cons (before : option (list V)) (c : Z * (T * list V))
  (window : list (Z * (T * list V))) :
  ThrottleNotions.stored before (c :: window)
  = ThrottleNotions.stored (Some c.2.2) window.
Proof.
  unfold ThrottleNotions.stored. rewrite (last_cons c).
  by destruct (last window).
Qed.

(** Calls made while [waiting] only replace what is stored. *)
Lemma run_window (window : list (Z * (T * list V))) :
  forall (clock : Z) (s s' : Throttle.state T V)
         (rest : list (Z * Throttle.event T V))
         (log : list (Throttle.invocation T V)),
  Throttle.waiting s = true ->
  Throttle.run func wait clock s (ThrottleNotions.calls window ++ rest)
  = Some (s', log) ->
  exists clock' : Z,
    clock <= clock'
    /\ Throttle.run func wait clock'
         (Throttle.State true
            (ThrottleNotions.stored (Throttle.lastArg s) window)
            (Throttle.timers s)) rest
       = Some (s', log).
Proof.
  induction window as [|[now [this arg]] w IH]; intros clock s s' rest log Hw Hrun.
  - exists clock. split; [lia|]. destruct s as [w la tms].
    unfold ThrottleNotions.stored. simpl in *. rewrite Hw in Hrun. exact Hrun.
  - rewrite stored_cons. simpl in Hrun.
    destruct (Z.leb_spec clock now) as [Hclock|]; [|done].
    unfold Throttle.throttled in Hrun. rewrite Hw in Hrun. simpl in Hrun.
    match type of Hrun with
    | match ?r with _ => _ end = _ => destruct r as [[s2 log2]|] eqn:Hrest; [|done]
    end.
    injection Hrun as <- <-.
    apply IH in Hrest as (clock' & Hle & Hrest); [|done].
    exists clock'. split; [lia|]. exact Hrest.
Qed.

End throttle_window.


Section throttle_arguments.
Context {T V : Type}.
Variable func : T -> list V -> completion unit.
Variable wait : Z.

(** Whether arguments are stored. *)
Lemma step_arguments (now : Z) (e : Throttle.event T V)
  (s s1 : Throttle.state T V) (log1 : list (Throttle.invocation T V)) :
  Throttle.step func wait now e s = Some (s1, log1) ->
  (forall i, i ∈ log1 ->
     Throttle.inv_args i ∈ Throttle.call_args [(now, e)]
     \/ Throttle.lastArg s = Some (Throttle.inv_args i))
  /\ (forall a, Throttle.lastArg s1 = Some a ->
        a ∈ Throttle.call_args [(now, e)] \/ Throttle.lastArg s = Some a).
Proof.
  destruct s as [w la tms]. destruct e as [this arg|k]; simpl.
  - unfold Throttle.throttled. simpl. destruct w; simpl.
    + intros [= <- <-]. split; [intros i Hi; by apply elem_of_nil in Hi|].
      simpl. intros a [= <-]. left. apply list_elem_of_here.
    + destruct (func this arg) as [u|err]; simpl; intros [= <- <-]; simpl;
        (split; [|by right]); intros i Hi;
        apply list_elem_of_singleton in Hi as ->; left; apply list_elem_of_here.
  - destruct (tms !! k) as [tm|]; [|done].
    destruct (Throttle.deadline tm <=? now); [|done].
    unfold Throttle.callback. simpl. destruct la as [arg|]; simpl.
    + destruct (func (Throttle.timer_this tm) arg) as [u|err]; simpl;
        intros [= <- <-]; simpl.
      * split; [|done]. intros i Hi.
        apply list_elem_of_singleton in Hi as ->. by right.
      * split; [|by right]. intros i Hi.
        apply list_elem_of_singleton in Hi as ->. by right.
    + intros [= <- <-]. split; [intros i Hi; by apply elem_of_nil in Hi|done].
Qed.

Lemma call_args_cons (now : Z) (e : Throttle.event T V)
  (rest : list (Z * Throttle.event T V)) :
  Throttle.call_args ((now, e) :: rest)
  = Throttle.call_args [(now, e)] ++ Throttle.call_args rest.
Proof. by destruct e. Qed.

Lemma run_arguments (events : list (Z * Throttle.event T V)) :
  forall (clock : Z) (s0 s : Throttle.state T V)
         (log : list (Throttle.invocation T V)),
  Throttle.run func wait clock s0 events = Some (s, log) ->
  (forall i, i ∈ log ->
     Throttle.inv_args i ∈ Throttle.call_args events
     \/ Throttle.lastArg s0 = Some (Throttle.inv_args i))
  /\ (forall a, Throttle.lastArg s = Some a ->
        a ∈ Throttle.call_args events \/ Throttle.lastArg s0 = Some a).
Proof.
  induction events as [|[now e] rest IH]; intros clock s0 s log Hrun.
  - injection Hrun as <- <-. split; [intros i Hi; by apply elem_of_nil in Hi|].
    intros a Ha. by right.
  - cbn [Throttle.run] in Hrun. destruct (clock <=? now); [|done].
    destruct (Throttle.step func wait now e s0) as [[s1 log1]|] eqn:Hstep; [|done].
    destruct (Throttle.run func wait now s1 rest) as [[s2 log2]|] eqn:Hrest;
      [|done].
    injection Hrun as <- <-.
    destruct (step_arguments now e s0 s1 log1 Hstep) as [Hlog1 Hla1].
    destruct (IH now s1 s2 log2 Hrest) as [Hlog2 Hla2].
    rewrite call_args_cons. split.
    + intros i Hi. apply elem_of_app in Hi as [Hi|Hi].
      * destruct (Hlog1 i Hi) as [?|?]; [left|by right].
        apply elem_of_app. by left.
      * destruct (Hlog2 i Hi) as [?|Hs1]; [left; apply elem_of_app; by right|].
        destruct (Hla1 _ Hs1) as [?|?]; [left|by right].
        apply elem_of_app. by left.
    + intros a Ha. destruct (Hla2 a Ha) as [?|Hs1];
        [left; apply elem_of_app; by right|].
      destruct (Hla1 _ Hs1) as [?|?]; [left|by right].
      apply elem_of_app. by left.
Qed.

Hypothesis func_returns : forall this arg, exists u : unit, func this arg = Normal u.

Lemma step_count (now : Z) (e : Throttle.event T V)
  (s s1 : Throttle.state T V) (log1 : list (Throttle.invocation T V)) :
  Throttle.step func wait now e s = Some (s1, log1) ->
  (length log1 + (match Throttle.lastArg s1 with Some _ => 1 | None => 0 end)
   <= length (Throttle.call_args [(now, e)])
      + (match Throttle.lastArg s with Some _ => 1 | None => 0 end))%nat
  /\ ((is_Some (Throttle.lastArg s) -> Throttle.waiting s = true) ->
      is_Some (Throttle.lastArg s1) -> Throttle.waiting s1 = true).
Proof.
  destruct s as [w la tms]. destruct e as [this arg|k]; simpl.
  - unfold Throttle.throttled. simpl. destruct w; simpl.
    + intros [= <- <-]. simpl. split; [destruct la; lia|done].
    + destruct (func_returns this arg) as [u ->]. simpl.
      intros [= <- <-]. simpl. split; [destruct la; lia|done].
  - destruct (tms !! k) as [tm|]; [|done].
    destruct (Throttle.deadline tm <=? now); [|done].
    unfold Throttle.callback. simpl. destruct la as [arg|]; simpl.
    + destruct (func_returns (Throttle.timer_this tm) arg) as [u ->]. simpl.
      intros [= <- <-]. simpl. split; [lia|done].
    + intros [= <- <-]. simpl. split; [lia|]. by intros _ [? ?].
Qed.

Lemma run_count (events : list (Z * Throttle.event T V)) :
  forall (clock : Z) (s0 s : Throttle.state T V)
         (log : list (Throttle.invocation T V)),
  Throttle.run func wait clock s0 events = Some (s, log) ->
  (length log + (match Throttle.lastArg s with Some _ => 1 | None => 0 end)
   <= length (Throttle.call_args events)
      + (match Throttle.lastArg s0 with Some _ => 1 | None => 0 end))%nat
  /\ ((is_Some (Throttle.lastArg s0) -> Throttle.waiting s0 = true) ->
      is_Some (Throttle.lastArg s) -> Throttle.waiting s = true).
Proof.
  induction events as [|[now e] rest IH]; intros clock s0 s log Hrun.
  - injection Hrun as <- <-. simpl. split; [lia|done].
  - cbn [Throttle.run] in Hrun. destruct (clock <=? now); [|done].
    destruct (Throttle.step func wait now e s0) as [[s1 log1]|] eqn:Hstep; [|done].
    destruct (Throttle.run func wait now s1 rest) as [[s2 log2]|] eqn:Hrest;
      [|done].
    injection Hrun as <- <-.
    destruct (step_count now e s0 s1 log1 Hstep) as [Hc1 Hw1].
    destruct (IH now s1 s2 log2 Hrest) as [Hc2 Hw2].
    rewrite call_args_cons, !length_app. split; [lia|auto].
Qed.

End throttle_arguments.

(** X14 -- [func] is only ever given arguments the throttled function was
    called with.  After any sequence of calls and timers firing, from the
    start, the arguments of every call of [func], and the arguments stored,
    are those of some call of the throttled function.  If [func] never
    throws, [func] has run at most as often as the throttled function was
    called, counting the stored arguments as a run to come, and arguments
    are stored only while [waiting]. *)
Theorem X14_throttle_arguments {T V : Type} (func : T -> list V -> completion unit)
  (wait clock : Z) (events : list (Z * Throttle.event T V))
  (s : Throttle.state T V) (log : list (Throttle.invocation T V)) :
  Throttle.run func wait clock Throttle.initial events = Some (s, log) ->
  (forall i, i ∈ log -> Throttle.inv_args i ∈ Throttle.call_args events)
  /\ (forall a, Throttle.lastArg s = Some a -> a ∈ Throttle.call_args events)
  /\ ((forall this arg, exists u : unit, func this arg = Normal u) ->
      (length log + (match Throttle.lastArg s with Some _ => 1 | None => 0 end)
       <= length (Throttle.call_args events))%nat
      /\ (is_Some (Throttle.lastArg s) -> Throttle.waiting s = true)).
Proof.
  intros Hrun.
  destruct (run_arguments func wait events clock _ s log Hrun) as [Hlog Hla].
  split; [|split].
  - intros i Hi. by destruct (Hlog i Hi).
  - intros a Ha. by destruct (Hla a Ha).
  - intros Hret.
    destruct (run_count func wait Hret events clock _ s log Hrun) as [Hc Hw].
    simpl in *. split; [lia|]. apply Hw. by intros [? ?].
Qed.

(** X15 -- Arguments on which [func] throws from the timer are run again.
    When the timer runs [func] on the stored arguments and [func] throws,
    the arguments stay stored and the throttle is open: the next call runs
    [func] at once, and when its window ends [func] is run on the old
    arguments a second time, with the [this] of that next call, though no
    call was made in that window.  [func] has then run four times for
    three calls of the throttled function. *)
Theorem X15_throttle_replay_after_throw {T V : Type}
  (func : T -> list V -> completion unit) (wait clock t0 t1 t2 t3 t4 : Z)
  (this0 this1 this2 : T) (a b c : list V) (e : error) :
  (exists u : unit, func this0 a = Normal u) ->
  func this0 b = Throw e ->
  (exists u : unit, func this2 c = Normal u) ->
  clock <= t0 <= t1 ->
  t1 <= t2 <= t3 ->
  t0 + Z.max 0 wait <= t2 ->
  t3 + Z.max 0 wait <= t4 ->
  Throttle.run func wait clock Throttle.initial
    [(t0, Throttle.Call this0 a); (t1, Throttle.Call this1 b);
     (t2, Throttle.Fire 0);
     (t3, Throttle.Call this2 c); (t4, Throttle.Fire 0)]
  = Some (match func this2 b with
          | Normal _ =>
              Throttle.State true None
                [Throttle.Timer (t4 + Z.max 0 wait) this2]
          | Throw _ => Throttle.State false (Some b) []
          end,
          [Throttle.Invocation t0 this0 a; Throttle.Invocation t2 this0 b;
           Throttle.Invocation t3 this2 c; Throttle.Invocation t4 this2 b]).
Proof.
  intros [u Ha] Hb [u' Hc] Ht01 Ht23 Hdue2 Hdue4.
  assert (t3 <= t4) as Ht34 by lia.
  simpl. unfold Throttle.throttled, Throttle.callback. simpl.
  repeat match goal with
         | |- context [?x <=? ?y] =>
             destruct (Z.leb_spec x y); [|lia]; simpl
         end.
  rewrite Ha. simpl.
  repeat match goal with
         | |- context [?x <=? ?y] =>
             destruct (Z.leb_spec x y); [|lia]; simpl
         end.
  rewrite Hb. simpl.
  repeat match goal with
         | |- context [?x <=? ?y] =>
             destruct (Z.leb_spec x y); [|lia]; simpl
         end.
  rewrite Hc. simpl.
  repeat match goal with
         | |- context [?x <=? ?y] =>
             destruct (Z.leb_spec x y); [|lia]; simpl
         end.
  by destruct (func this2 b).
Qed.




Lemma X14_throttle_arguments_witness :
  (length [Throttle.Invocation 0 Js.VUndefined [Js.VString "A"];
           Throttle.Invocation 1000 Js.VUndefined [Js.VString "C"]] + 0
   <= length (Throttle.call_args ThrottleExample.events))%nat.
Proof.
  refine (proj1 (proj2 (proj2 (X14_throttle_arguments ThrottleExample.log 1000 0
                                 ThrottleExample.events
                                 (Throttle.State true None
                                    [Throttle.Timer 2000 Js.VUndefined])
                                 _ _)) _)).
  - reflexivity.
  - intros this arg. by exists tt.
Defined.

Lemma X15_throttle_replay_witness :
  Throttle.run ThrottleExample.strict 1000 0 Throttle.initial
    [(0, Throttle.Call Js.VUndefined [Js.VString "A"]);
     (1, Throttle.Call Js.VUndefined []);
     (1000, Throttle.Fire 0);
     (1500, Throttle.Call Js.VUndefined [Js.VString "C"]);
     (2500, Throttle.Fire 0)]
  = Some (Throttle.State false (Some []) [],
          [Throttle.Invocation 0 Js.VUndefined [Js.VString "A"];
           Throttle.Invocation 1000 Js.VUndefined [];
           Throttle.Invocation 1500 Js.VUndefined [Js.VString "C"];
           Throttle.Invocation 2500 Js.VUndefined []]).
Proof.
  refine (X15_throttle_replay_after_throw ThrottleExample.strict 1000 0
            0 1 1000 1500 2500 Js.VUndefined Js.VUndefined Js.VUndefined
            [Js.VString "A"] [] [Js.VString "C"] TypeError _ _ _ _ _ _ _).
  - by exists tt.
  - reflexivity.
  - by exists tt.
  - lia.
  - lia.
  - simpl. lia.
  - simpl. lia.
Defined.
